(** * tools/fast-whisper-transcribe.py: a shallow embedding

    The script parses its command line with [argparse], imports
    [faster_whisper], builds a [WhisperModel], transcribes one audio file,
    joins the segment texts and prints a two-field JSON object.

    Layout of this development:
    - [Py]: the Python values and built-ins the script calls
      ([str.strip], [str.join], [int], truthiness, [max], [json.dumps]);
    - [Argparse]: the parser that [parse_args] configures, following
      [argparse.py] of CPython 3.11 ([_parse_optional], [_get_option_tuples],
      [consume_optional], [_get_values], the required check, [parse_args]);
    - [Whisper]: the interface of the external library;
    - [Script]: [parse_args] and [main], in a small state-and-exception
      monad whose state holds the two output streams and the log of the
      calls made to the library, and [run], one run of the process;
    - [Json], [Statements], [Loop]: a reader of JSON string literals and the
      predicates that the statements and the lemmas use;
    - the theorems: the segment texts, the language field, the two failure
      paths, the JSON line, the argument parser, the beam size. *)

From Stdlib Require Import List ZArith NArith Lia Bool String Ascii.
Import ListNotations.

Set Implicit Arguments.
Set Warnings "-register-all".

(** ** Python strings and built-ins *)

Module Py.

Local Open Scope N_scope.

(** A Python [str] is a sequence of Unicode code points. *)
Definition pystr := list N.

(** ASCII literals are written [py "text"]. *)
Definition py (s : string) : pystr := map N_of_ascii (list_ascii_of_string s).
Arguments py s%_string.

Fixpoint str_eqb (a b : pystr) : bool :=
  match a, b with
  | [], [] => true
  | x :: a', y :: b' => N.eqb x y && str_eqb a' b'
  | _, _ => false
  end.

(** The line feed. *)
Definition newline : pystr := [10].

(** [c in s] for a one-character string [c]. *)
Definition has_char (c : N) (s : pystr) : bool := existsb (N.eqb c) s.

Fixpoint startswith (s prefix : pystr) : bool :=
  match prefix, s with
  | [], _ => true
  | p :: prefix', c :: s' => N.eqb p c && startswith s' prefix'
  | _ :: _, [] => false
  end.

(** [s.split(sep, 1)] for a one-character [sep] that occurs in [s]: the text
    before the first [sep] and the text after it.  (When [sep] does not occur
    the second component is empty; the callers test [sep in s] first.) *)
Fixpoint split1 (sep : N) (s : pystr) : pystr * pystr :=
  match s with
  | [] => ([], [])
  | c :: s' => if N.eqb c sep then ([], s')
               else let (a, b) := split1 sep s' in (c :: a, b)
  end.

(** [str.isspace] on one code point (CPython's [_PyUnicode_IsWhitespace]). *)
Definition isspace (c : N) : bool :=
  ((9 <=? c) && (c <=? 13)) || ((28 <=? c) && (c <=? 32))
  || (c =? 133) || (c =? 160) || (c =? 5760)
  || ((8192 <=? c) && (c <=? 8202))
  || (c =? 8232) || (c =? 8233) || (c =? 8239) || (c =? 8287)
  || (c =? 12288).

Fixpoint lstrip_by (f : N -> bool) (s : pystr) : pystr :=
  match s with
  | [] => []
  | c :: s' => if f c then lstrip_by f s' else s
  end.

Definition rstrip_by (f : N -> bool) (s : pystr) : pystr :=
  rev (lstrip_by f (rev s)).

Definition strip_by (f : N -> bool) (s : pystr) : pystr :=
  rstrip_by f (lstrip_by f s).

(** [s.strip()] *)
Definition strip (s : pystr) : pystr := strip_by isspace s.

(** [sep.join(l)] *)
Fixpoint join (sep : pystr) (l : list pystr) : pystr :=
  match l with
  | [] => []
  | [x] => x
  | x :: l' => x ++ sep ++ join sep l'
  end.

(** The code points of Unicode category Nd come in runs of ten, each run
    starting at a digit zero; these are the zeros (Unicode 14, the database
    of CPython 3.11). *)
Definition decimal_zeros : list N :=
  [48; 1632; 1776; 1984; 2406; 2534; 2662; 2790; 2918; 3046; 3174; 3302;
   3430; 3558; 3664; 3792; 3872; 4160; 4240; 6112; 6160; 6470; 6608; 6784;
   6800; 6992; 7088; 7232; 7248; 42528; 43216; 43264; 43472; 43504; 43600;
   44016; 65296; 66720; 68912; 69734; 69872; 69942; 70096; 70384; 70736;
   70864; 71248; 71360; 71472; 71904; 72016; 72784; 73040; 73120; 92768;
   92864; 93008; 120782; 120792; 120802; 120812; 120822; 123200; 123632;
   125264; 130032]%N.

(** [unicodedata.decimal]: the value of a decimal digit, if it is one. *)
Definition decimal_value (c : N) : option N :=
  match find (fun z => (z <=? c) && (c <? z + 10)) decimal_zeros with
  | Some z => Some (c - z)
  | None => None
  end.

Definition isdecimal (c : N) : bool :=
  match decimal_value c with Some _ => true | None => false end.

(** [int(s)] skips, at both ends, the ASCII blanks and the non-ASCII Unicode
    white space; the ASCII separators 0x1c..0x1f are not skipped. *)
Definition int_space (c : N) : bool :=
  ((9 <=? c) && (c <=? 13)) || (c =? 32) || ((127 <=? c) && isspace c).

(** The digits after the first one: digits, each optionally preceded by one
    underscore.  Returns the value and the number of digits read. *)
Fixpoint int_digits (s : pystr) (acc : N) (count : N) : option (N * N) :=
  match s with
  | [] => Some (acc, count)
  | c :: s' =>
      if c =? 95 then
        match s' with
        | d :: s'' =>
            match decimal_value d with
            | Some v => int_digits s'' (10 * acc + v) (count + 1)
            | None => None
            end
        | [] => None
        end
      else
        match decimal_value c with
        | Some v => int_digits s' (10 * acc + v) (count + 1)
        | None => None
        end
  end%N.

(** [sys.get_int_max_str_digits()], at its default. *)
Definition int_max_str_digits : N := 4300.

(** An unsigned decimal literal. *)
Definition int_unsigned (s : pystr) : option N :=
  match s with
  | [] => None
  | c :: s' =>
      match decimal_value c with
      | None => None
      | Some v =>
          match int_digits s' v 1 with
          | Some (n, count) =>
              if (count <=? int_max_str_digits)%N then Some n else None
          | None => None
          end
      end
  end.

(** [int(s)] for a string [s]: [None] stands for [ValueError]. *)
Definition int (s : pystr) : option Z :=
  match strip_by int_space s with
  | 43%N :: body => option_map Z.of_N (int_unsigned body)
  | 45%N :: body => option_map (fun n => (- Z.of_N n)%Z) (int_unsigned body)
  | body => option_map Z.of_N (int_unsigned body)
  end.

(** The values that reach the script from [argparse]: [None], integers,
    strings, and lists (argparse stores the list of converted values when an
    option did not get exactly one string). *)
Inductive pyval :=
| PyNone
| PyInt (z : Z)
| PyStr (s : pystr)
| PyList (l : list pyval).

(** [bool(v)] *)
Definition truthy (v : pyval) : bool :=
  match v with
  | PyNone => false
  | PyInt z => negb (z =? 0)%Z
  | PyStr s => match s with [] => false | _ => true end
  | PyList l => match l with [] => false | _ => true end
  end.

(** [a or b] *)
Definition py_or (a b : pyval) : pyval := if truthy a then a else b.

(** [v == s] for a string [s] *)
Definition eq_str (v : pyval) (s : pystr) : bool :=
  match v with
  | PyStr t => str_eqb t s
  | _ => false
  end.

(** [o or ""] for [o : Optional[str]] *)
Definition or_empty (o : option pystr) : pystr :=
  match o with
  | Some (c :: s) => c :: s
  | Some [] => []
  | None => []
  end.

(** *** [json.dumps(..., ensure_ascii=False)] on strings *)

Definition hex_digit (n : N) : N := (if n <? 10 then 48 + n else 87 + n)%N.

(** [ESCAPE_DCT] of [json.encoder]: backslash, double quote and the control
    characters; every other code point stands for itself. *)
Definition escape_char (c : N) : pystr :=
  if c =? 34 then [92; 34]
  else if c =? 92 then [92; 92]
  else if c =? 8 then [92; 98]
  else if c =? 12 then [92; 102]
  else if c =? 10 then [92; 110]
  else if c =? 13 then [92; 114]
  else if c =? 9 then [92; 116]
  else if c <? 32 then [92; 117; 48; 48; hex_digit (c / 16); hex_digit (c mod 16)]
  else [c].

(** [encode_basestring]: the JSON string literal for [s]. *)
Definition encode_basestring (s : pystr) : pystr :=
  [34] ++ flat_map escape_char s ++ [34].

(** [json.dumps(d, ensure_ascii=False)] for a [dict] from strings to
    strings, given as its items in insertion order; the default separators
    are [", "] and [": "]. *)
Definition dumps (d : list (pystr * pystr)) : pystr :=
  py "{"
  ++ join (py ", ")
       (map (fun '(k, v) => encode_basestring k ++ py ": " ++ encode_basestring v) d)
  ++ py "}".

(** [type(v).__name__] *)
Definition type_name (v : pyval) : pystr :=
  match v with
  | PyNone => py "NoneType"
  | PyInt _ => py "int"
  | PyStr _ => py "str"
  | PyList _ => py "list"
  end.

End Py.

(** ** The argument parser built by [parse_args]

    [argparse.ArgumentParser(description=...)] with the seven [add_argument]
    calls of the script: no positional argument, the automatic [-h]/[--help],
    abbreviations allowed, prefix character [-]. *)

Module Argparse.

Import Py.
Local Open Scope N_scope.

Inductive action :=
| Help | Audio | Model | Device | ComputeType | Language | BeamSize | VadFilter.

Definition action_eqb (a b : action) : bool :=
  match a, b with
  | Help, Help | Audio, Audio | Model, Model | Device, Device
  | ComputeType, ComputeType | Language, Language | BeamSize, BeamSize
  | VadFilter, VadFilter => true
  | _, _ => false
  end.

(** [parser._option_string_actions], in the order of registration. *)
Definition option_string_actions : list (pystr * action) :=
  [ (py "-h", Help); (py "--help", Help);
    (py "--audio", Audio);
    (py "--model", Model);
    (py "--device", Device);
    (py "--compute-type", ComputeType);
    (py "--language", Language);
    (py "--beam-size", BeamSize);
    (py "--vad-filter", VadFilter) ].

Fixpoint lookup (s : pystr) (l : list (pystr * action)) : option action :=
  match l with
  | [] => None
  | (k, a) :: l' => if str_eqb s k then Some a else lookup s l'
  end.

(** [action.nargs]: [0] for the help action, [None] (exactly one argument)
    for the seven store actions. *)
Definition takes_argument (a : action) : bool :=
  match a with Help => false | _ => true end.

(** The triple [(action, option_string, explicit_arg)] of [_parse_optional];
    [ot_action = None] is an option string that no action owns. *)
Record option_tuple := OptionTuple {
  ot_action : option action;
  ot_option_string : pystr;
  ot_explicit_arg : option pystr
}.

Inductive arg_error :=
| AmbiguousOption (arg_string : pystr) (matches : list pystr)
| ExpectedOneArgument (a : action)
| IgnoredExplicitArgument (a : action) (explicit_arg : pystr)
| InvalidIntValue (a : action) (arg_string : pystr)
| InvalidChoice (a : action) (value : pyval)
| RequiredArguments (names : list action)
| UnrecognizedArguments (argv : list pystr).

(** The two ways in which parsing ends the process: [parser.error] (usage
    and message on standard error, [SystemExit(2)]) and the help action
    (help on standard output, [SystemExit(0)]). *)
Inductive exit :=
| UsageError (e : arg_error)
| HelpExit.

Inductive parse (X : Type) :=
| Done (x : X)
| Exit (e : exit).
Arguments Exit {X} e.

Definition bind {X Y} (m : parse X) (k : X -> parse Y) : parse Y :=
  match m with
  | Done x => k x
  | Exit e => Exit e
  end.

(** [_get_option_tuples], for an [option_string] of at least two characters
    that starts with [-]. *)
Definition get_option_tuples (option_string : pystr) : list option_tuple :=
  match option_string with
  | 45 :: 45 :: _ =>
      let (option_prefix, explicit_arg) :=
        if has_char 61 option_string
        then let (p, e) := split1 61 option_string in (p, Some e)
        else (option_string, None) in
      flat_map (fun '(os, a) =>
                  if startswith os option_prefix
                  then [OptionTuple (Some a) os explicit_arg] else [])
               option_string_actions
  | 45 :: _ :: _ =>
      let short_option_prefix := firstn 2 option_string in
      let short_explicit_arg := skipn 2 option_string in
      flat_map (fun '(os, a) =>
                  if str_eqb os short_option_prefix
                  then [OptionTuple (Some a) os (Some short_explicit_arg)]
                  else if startswith os option_string
                  then [OptionTuple (Some a) os None] else [])
               option_string_actions
  | _ => []
  end.

(** [\d+] *)
Definition digits1 (s : pystr) : bool :=
  match s with [] => false | _ => forallb isdecimal s end.

(** [\d+|\d*\.\d+] against the whole of [s] *)
Definition number_body (s : pystr) : bool :=
  digits1 s
  || (has_char 46 s && let (a, b) := split1 46 s in forallb isdecimal a && digits1 b).

(** What [$] may leave unmatched: one final line feed. *)
Definition chomp (s : pystr) : pystr :=
  match rev s with
  | 10 :: r => rev r
  | _ => s
  end.

(** [_negative_number_matcher.match], the pattern [^-\d+$|^-\d*\.\d+$] *)
Definition negative_number_matcher (s : pystr) : bool :=
  match s with
  | 45 :: body => number_body body || number_body (chomp body)
  | _ => false
  end.

Inductive parsed_optional :=
| NotOptional                                  (* [return None] *)
| IsOptional (t : option_tuple)
| Ambiguous (matches : list option_tuple).     (* [self.error(...)] *)

(** [_parse_optional]; no option string of this parser looks like a negative
    number, so [_has_negative_number_optionals] is empty. *)
Definition parse_optional (arg_string : pystr) : parsed_optional :=
  match arg_string with
  | [] => NotOptional
  | c :: _ =>
      if negb (c =? 45) then NotOptional else
      match lookup arg_string option_string_actions with
      | Some a => IsOptional (OptionTuple (Some a) arg_string None)
      | None =>
          if (List.length arg_string =? 1)%nat then NotOptional else
          let before_equals :=
            if has_char 61 arg_string then
              let (option_string, explicit_arg) := split1 61 arg_string in
              match lookup option_string option_string_actions with
              | Some a => Some (OptionTuple (Some a) option_string (Some explicit_arg))
              | None => None
              end
            else None in
          match before_equals with
          | Some t => IsOptional t
          | None =>
              match get_option_tuples arg_string with
              | _ :: _ :: _ as option_tuples => Ambiguous option_tuples
              | [t] => IsOptional t
              | [] =>
                  if negative_number_matcher arg_string then NotOptional
                  else if has_char 32 arg_string then NotOptional
                  else IsOptional (OptionTuple None arg_string None)
              end
          end
      end
  end.

(** One letter of [arg_strings_pattern]; an [O] keeps the tuple that
    [option_string_indices] records for its index. *)
Inductive pattern :=
| A
| O (t : option_tuple)
| Dash.

(** The first loop of [_parse_known_args]: every argument string with its
    pattern letter; everything after the first [--] is an [A]. *)
Fixpoint arg_strings_pattern (arg_strings : list pystr)
  : parse (list (pystr * pattern)) :=
  match arg_strings with
  | [] => Done []
  | arg_string :: rest =>
      if str_eqb arg_string (py "--")
      then Done ((arg_string, Dash) :: map (fun s => (s, A)) rest)
      else
        match parse_optional arg_string with
        | Ambiguous matches =>
            Exit (UsageError (AmbiguousOption arg_string
                                (map ot_option_string matches)))
        | NotOptional =>
            bind (arg_strings_pattern rest) (fun l => Done ((arg_string, A) :: l))
        | IsOptional t =>
            bind (arg_strings_pattern rest) (fun l => Done ((arg_string, O t) :: l))
        end
  end.

Record Namespace := {
  audio : pyval;
  model : pyval;
  device : pyval;
  compute_type : pyval;
  language : pyval;
  beam_size : pyval;
  vad_filter : pyval
}.

(** The [default=] of each action ([None] where none is given). *)
Definition defaults : Namespace := {|
  audio := PyNone;
  model := PyStr (py "small");
  device := PyStr (py "auto");
  compute_type := PyStr (py "int8");
  language := PyNone;
  beam_size := PyInt 1;
  vad_filter := PyStr (py "true")
|}.

(** [setattr(namespace, action.dest, values)] of [_StoreAction] *)
Definition setattr (ns : Namespace) (a : action) (v : pyval) : Namespace :=
  match a with
  | Help => ns
  | Audio => {| audio := v; model := model ns; device := device ns;
                compute_type := compute_type ns; language := language ns;
                beam_size := beam_size ns; vad_filter := vad_filter ns |}
  | Model => {| audio := audio ns; model := v; device := device ns;
                compute_type := compute_type ns; language := language ns;
                beam_size := beam_size ns; vad_filter := vad_filter ns |}
  | Device => {| audio := audio ns; model := model ns; device := v;
                 compute_type := compute_type ns; language := language ns;
                 beam_size := beam_size ns; vad_filter := vad_filter ns |}
  | ComputeType => {| audio := audio ns; model := model ns; device := device ns;
                      compute_type := v; language := language ns;
                      beam_size := beam_size ns; vad_filter := vad_filter ns |}
  | Language => {| audio := audio ns; model := model ns; device := device ns;
                   compute_type := compute_type ns; language := v;
                   beam_size := beam_size ns; vad_filter := vad_filter ns |}
  | BeamSize => {| audio := audio ns; model := model ns; device := device ns;
                   compute_type := compute_type ns; language := language ns;
                   beam_size := v; vad_filter := vad_filter ns |}
  | VadFilter => {| audio := audio ns; model := model ns; device := device ns;
                    compute_type := compute_type ns; language := language ns;
                    beam_size := beam_size ns; vad_filter := v |}
  end.

(** [_get_value]: [type=int] for [--beam-size], the identity otherwise. *)
Definition get_value (a : action) (arg_string : pystr) : parse pyval :=
  match a with
  | BeamSize =>
      match int arg_string with
      | Some z => Done (PyInt z)
      | None => Exit (UsageError (InvalidIntValue a arg_string))
      end
  | _ => Done (PyStr arg_string)
  end.

(** [_check_value]: [choices=["true", "false"]] for [--vad-filter]. *)
Definition check_value (a : action) (value : pyval) : parse unit :=
  match a with
  | VadFilter =>
      if eq_str value (py "true") || eq_str value (py "false") then Done tt
      else Exit (UsageError (InvalidChoice a value))
  | _ => Done tt
  end.

(** [list.remove(x)], doing nothing when [x] is absent. *)
Fixpoint remove_first (x : pystr) (l : list pystr) : list pystr :=
  match l with
  | [] => []
  | y :: l' => if str_eqb y x then l' else y :: remove_first x l'
  end.

Fixpoint get_value_list (a : action) (l : list pystr) : parse (list pyval) :=
  match l with
  | [] => Done []
  | s :: l' =>
      bind (get_value a s) (fun v =>
      bind (get_value_list a l') (fun vs => Done (v :: vs)))
  end.

Fixpoint check_value_list (a : action) (l : list pyval) : parse unit :=
  match l with
  | [] => Done tt
  | v :: l' => bind (check_value a v) (fun _ => check_value_list a l')
  end.

(** [_get_values]: the first [--] is removed from the strings; one string
    for a one-argument action gives the converted and checked value; any
    other number of strings gives the list of the converted values. *)
Definition get_values (a : action) (arg_strings : list pystr) : parse pyval :=
  let arg_strings := remove_first (py "--") arg_strings in
  match takes_argument a, arg_strings with
  | true, [arg_string] =>
      bind (get_value a arg_string) (fun value =>
      bind (check_value a value) (fun _ => Done value))
  | _, _ =>
      bind (get_value_list a arg_strings) (fun value =>
      bind (check_value_list a value) (fun _ => Done (PyList value)))
  end.

Record state := {
  namespace : Namespace;
  seen_actions : list action;
  extras : list pystr
}.

Definition add_extra (s : pystr) (st : state) : state :=
  {| namespace := namespace st;
     seen_actions := seen_actions st;
     extras := extras st ++ [s] |}.

(** [take_action]: the action is marked as seen, its values are computed,
    and the action is called: help prints and exits, store assigns. *)
Definition take_action (a : action) (argument_strings : list pystr) (st : state)
  : parse state :=
  bind (get_values a argument_strings) (fun argument_values =>
  match a with
  | Help => Exit HelpExit
  | _ => Done {| namespace := setattr (namespace st) a argument_values;
                 seen_actions := a :: seen_actions st;
                 extras := extras st |}
  end).

Fixpoint take_actions (action_tuples : list (action * list pystr)) (st : state)
  : parse state :=
  match action_tuples with
  | [] => Done st
  | (a, args) :: l => bind (take_action a args st) (take_actions l)
  end.

(** The [while True] loop of [consume_optional] while there is an explicit
    argument.  The result is the action tuples collected so far and, when
    the explicit argument has been used up by single-dash options, the
    action that is still to be matched against the following strings. *)
Fixpoint explicit_loop (a : action) (option_string explicit_arg : pystr)
  {struct explicit_arg}
  : arg_error + (list (action * list pystr) * option action) :=
  let arg_count := if takes_argument a then 1 else 0 in
  let double_dash := match option_string with _ :: 45 :: _ => true | _ => false end in
  match explicit_arg with
  | c :: new_explicit_arg =>
      if (arg_count =? 0) && negb double_dash then
        match lookup [45; c] option_string_actions with
        | Some a' =>
            match new_explicit_arg with
            | [] => inr ([(a, [])], Some a')
            | _ :: _ =>
                match explicit_loop a' [45; c] new_explicit_arg with
                | inl e => inl e
                | inr (l, k) => inr ((a, []) :: l, k)
                end
            end
        | None => inl (IgnoredExplicitArgument a explicit_arg)
        end
      else if arg_count =? 1 then inr ([(a, [explicit_arg])], None)
      else inl (IgnoredExplicitArgument a explicit_arg)
  | [] =>
      if arg_count =? 1 then inr ([(a, [explicit_arg])], None)
      else inl (IgnoredExplicitArgument a explicit_arg)
  end.

(** The main loop of [_parse_known_args] for a parser without positional
    arguments: strings that no option consumes go to [extras];
    [consume_optional] matches an option's argument against the pattern that
    follows ([(A)] for one argument, the empty pattern for none), raising
    "expected one argument" before any action of the same string runs. *)
Fixpoint consume (items : list (pystr * pattern)) (st : state) : parse state :=
  match items with
  | [] => Done st
  | (arg_string, A) :: rest => consume rest (add_extra arg_string st)
  | (arg_string, Dash) :: rest => consume rest (add_extra arg_string st)
  | (arg_string, O t) :: rest =>
      match ot_action t with
      | None => consume rest (add_extra arg_string st)
      | Some a =>
          let matched :=
            match ot_explicit_arg t with
            | Some explicit_arg => explicit_loop a (ot_option_string t) explicit_arg
            | None => inr ([], Some a)
            end in
          match matched with
          | inl e => Exit (UsageError e)
          | inr (action_tuples, None) =>
              bind (take_actions action_tuples st) (consume rest)
          | inr (action_tuples, Some a') =>
              if takes_argument a' then
                match rest with
                | (arg, A) :: rest' =>
                    bind (take_actions (action_tuples ++ [(a', [arg])]) st)
                         (consume rest')
                | _ => Exit (UsageError (ExpectedOneArgument a'))
                end
              else
                bind (take_actions (action_tuples ++ [(a', [])]) st)
                     (consume rest)
          end
      end
  end.

Definition initial_state : state :=
  {| namespace := defaults; seen_actions := []; extras := [] |}.

(** [parse_known_args]: classification, the main loop, then the check that
    the required [--audio] was seen.  (The conversion of string defaults of
    unseen actions is the identity here: the string defaults have no
    [type=].) *)
Definition parse_known_args (args : list pystr) : parse (Namespace * list pystr) :=
  bind (arg_strings_pattern args) (fun items =>
  bind (consume items initial_state) (fun st =>
  if existsb (action_eqb Audio) (seen_actions st)
  then Done (namespace st, extras st)
  else Exit (UsageError (RequiredArguments [Audio])))).

(** [ArgumentParser.parse_args] *)
Definition parse_args (args : list pystr) : parse Namespace :=
  bind (parse_known_args args) (fun '(ns, argv) =>
  match argv with
  | [] => Done ns
  | _ :: _ => Exit (UsageError (UnrecognizedArguments argv))
  end).

End Argparse.

(** ** The external library

    [faster_whisper] is not part of the script; it is a parameter of the
    model.  Its calls either return or raise an instance of [Exception]
    (system-exiting exceptions such as [KeyboardInterrupt] are termination
    from outside, not library failures).  [transcribe] returns a generator:
    decoding, and its failures, happen while the segments are iterated. *)

Module Whisper.

Import Py.

(** An exception, as far as the script looks at it: [str(exc)]. *)
Record Exception := { exc_str : pystr }.

Inductive result (X : Type) :=
| Returns (x : X)
| Raises (exc : Exception).
Arguments Raises {X} exc.

(** [segment.text]: a [str], or [None]. *)
Record Segment := { text : option pystr }.

(** The generator of segments. *)
Inductive Segments :=
| StopIteration
| Yield (segment : Segment) (rest : Segments)
| Fails (exc : Exception).

(** The generator that yields the segments of [l] and stops. *)
Fixpoint yields (l : list Segment) : Segments :=
  match l with
  | [] => StopIteration
  | segment :: l' => Yield segment (yields l')
  end.

(** The [info] object: its [language] attribute may be missing (outer
    [None]); when present it is a [str] or [None]. *)
Record Info := { language : option (option pystr) }.

(** A [WhisperModel] instance, through its only method used:
    [transcribe(audio, beam_size=, language=, vad_filter=)]. *)
Record WhisperModel := {
  transcribe : pyval -> Z -> pyval -> bool -> result (Segments * Info)
}.

(** The module, through the constructor
    [WhisperModel(model, device=, compute_type=)]. *)
Record faster_whisper := {
  WhisperModel_init : pyval -> pyval -> pyval -> result WhisperModel
}.

End Whisper.

(** ** The script *)

Module Script.

Import Py Whisper.

(** What surrounds one run: the outcome of
    [from faster_whisper import WhisperModel], and the texts that argparse
    formats from the program name and the terminal width. *)
Record env := {
  import_faster_whisper : result faster_whisper;
  format_usage_error : Argparse.arg_error -> pystr;
  format_help : pystr
}.

(** The calls made to the library, in order. *)
Inductive call :=
| CallImport
| CallWhisperModel (model device compute_type : pyval)
| CallTranscribe (audio : pyval) (beam_size : Z) (language : pyval) (vad_filter : bool).

Record world := {
  stdout : pystr;
  stderr : pystr;
  calls : list call
}.

Definition initial_world : world := {| stdout := []; stderr := []; calls := [] |}.

(** What a statement can raise: [SystemExit] (from argparse), which
    [except Exception] lets through, or an [Exception]. *)
Inductive raised :=
| SystemExit (code : Z)
| Exc (exc : Exception).

(** Computations: state passing over [world], with exceptions. *)
Definition M (X : Type) : Type := world -> (X + raised) * world.

Definition ret {X} (x : X) : M X := fun w => (inl x, w).

Definition raise {X} (r : raised) : M X := fun w => (inr r, w).

Definition mbind {X Y} (m : M X) (k : X -> M Y) : M Y :=
  fun w =>
    match m w with
    | (inl x, w') => k x w'
    | (inr r, w') => (inr r, w')
    end.

Notation "x <- m ;; k" := (mbind m (fun x => k))
  (at level 61, m at next level, right associativity).
Notation "m ;;; k" := (mbind m (fun _ => k))
  (at level 61, right associativity).

(** [try: body  except Exception as exc: handler exc] *)
Definition try_except {X} (body : M X) (handler : Exception -> M X) : M X :=
  fun w =>
    match body w with
    | (inr (Exc exc), w') => handler exc w'
    | other => other
    end.

(** [sys.stdout.write(s)] and [sys.stderr.write(s)] *)
Definition write_stdout (s : pystr) : M unit :=
  fun w => (inl tt, {| stdout := stdout w ++ s; stderr := stderr w; calls := calls w |}).

Definition write_stderr (s : pystr) : M unit :=
  fun w => (inl tt, {| stdout := stdout w; stderr := stderr w ++ s; calls := calls w |}).

(** [print(s)] and [print(s, file=sys.stderr)] *)
Definition print (s : pystr) : M unit := write_stdout (s ++ newline).

Definition print_stderr (s : pystr) : M unit := write_stderr (s ++ newline).

(** A call to the library: logged, then its result or its exception. *)
Definition lib {X} (c : call) (r : result X) : M X :=
  fun w =>
    let w' := {| stdout := stdout w; stderr := stderr w; calls := calls w ++ [c] |} in
    match r with
    | Returns x => (inl x, w')
    | Raises exc => (inr (Exc exc), w')
    end.

(** [parse_args()]: the namespace, or the process exit of argparse. *)
Definition parse_args (e : env) (argv : list pystr) : M Argparse.Namespace :=
  match Argparse.parse_args argv with
  | Argparse.Done args => ret args
  | Argparse.Exit (Argparse.UsageError err) =>
      write_stderr (format_usage_error e err) ;;; raise (SystemExit 2)
  | Argparse.Exit Argparse.HelpExit =>
      write_stdout (format_help e) ;;; raise (SystemExit 0)
  end.

(** The [TypeError] of comparing [v], which is no number, with [1]. *)
Definition not_supported (v : pyval) : Exception :=
  {| exc_str := py "'>' not supported between instances of '" ++ type_name v
                ++ py "' and 'int'" |}.

(** [max(1, v)]: the larger integer, or [TypeError] when [v] is no number. *)
Definition max_1 (v : pyval) : M Z :=
  match v with
  | PyInt z => ret (Z.max 1 z)
  | _ => raise (Exc (not_supported v))
  end.

(** The generator expression [(segment.text or "").strip() for segment in
    segments], run to its end as [str.join] does. *)
Fixpoint stripped_texts (segments : Segments) : M (list pystr) :=
  match segments with
  | StopIteration => ret []
  | Yield segment rest =>
      let fragment := strip (or_empty (text segment)) in
      l <- stripped_texts rest ;;
      ret (fragment :: l)
  | Fails exc => raise (Exc exc)
  end.

(** [getattr(info, "language", "")] *)
Definition getattr_language (info : Info) : option pystr :=
  match language info with
  | Some v => v
  | None => Some (py "")
  end.

(** [" ".join(<the generator above>).strip()] *)
Definition joined_text (segments : Segments) : M pystr :=
  texts <- stripped_texts segments ;;
  ret (strip (join (py " ") texts)).

(** The [payload] dict, as its items in insertion order. *)
Definition payload (text : pystr) (info : Info) : list (pystr * pystr) :=
  [ (py "text", text);
    (py "language", or_empty (getattr_language info)) ].

(** The body of the second [try]. *)
Definition transcribe_and_print (fw : faster_whisper) (args : Argparse.Namespace)
  (vad_filter : bool) : M Z :=
  model <- lib (CallWhisperModel (Argparse.model args) (Argparse.device args)
                                 (Argparse.compute_type args))
               (WhisperModel_init fw (Argparse.model args) (Argparse.device args)
                                  (Argparse.compute_type args)) ;;
  beam_size <- max_1 (Argparse.beam_size args) ;;
  let language := py_or (Argparse.language args) PyNone in
  r <- lib (CallTranscribe (Argparse.audio args) beam_size language vad_filter)
           (transcribe model (Argparse.audio args) beam_size language vad_filter) ;;
  let '(segments, info) := r in
  text <- joined_text segments ;;
  print (dumps (payload text info)) ;;;
  ret 0%Z.

(** [main()] from its second statement on, for the namespace [args] that
    [parse_args()] returned.  The first [try] either binds [WhisperModel] or
    returns 2; the second [try] follows it. *)
Definition main_after_parse (e : env) (args : Argparse.Namespace) : M Z :=
  let vad_filter := eq_str (Argparse.vad_filter args) (py "true") in
  imported <-
    try_except
      (fw <- lib CallImport (import_faster_whisper e) ;; ret (inr fw))
      (fun exc =>
         print_stderr (py "faster-whisper import failed: " ++ exc_str exc) ;;;
         ret (inl 2%Z)) ;;
  match imported with
  | inl code => ret code
  | inr fw =>
      try_except
        (transcribe_and_print fw args vad_filter)
        (fun exc =>
           print_stderr (py "transcribe failed: " ++ exc_str exc) ;;;
           ret 1%Z)
  end.

(** [main()] *)
Definition main (e : env) (argv : list pystr) : M Z :=
  args <- parse_args e argv ;;
  main_after_parse e args.

(** The process: [raise SystemExit(main())].  The exit status is the value
    returned by [main] or the code of a [SystemExit] raised inside it; an
    [Exception] that escaped [main] would end the process with status 1
    ([main_catches_exceptions] shows that none does). *)
Record process := {
  exit_status : Z;
  standard_output : pystr;
  standard_error : pystr;
  library_calls : list call
}.

Definition finish (m : M Z) : process :=
  let (r, w) := m initial_world in
  {| exit_status :=
       match r with
       | inl code => code
       | inr (SystemExit code) => code
       | inr (Exc _) => 1%Z
       end;
     standard_output := stdout w;
     standard_error := stderr w;
     library_calls := calls w |}.

(** One run of the script with the arguments [argv] ([sys.argv[1:]]). *)
Definition run (e : env) (argv : list pystr) : process := finish (main e argv).

(** The run that follows a successful [parse_args()]. *)
Definition run_after_parse (e : env) (args : Argparse.Namespace) : process :=
  finish (main_after_parse e args).

End Script.

(** ** Reading JSON back

    The value of a JSON string literal (RFC 8259, section 7), used to state
    that what the script prints is a JSON object of strings.  A [\uXXXX]
    escape denotes the code unit [XXXX]. *)

Module Json.

Import Py.
Local Open Scope N_scope.






End Json.

(** ** Vocabulary of the statements *)

Module Statements.

Import Py Whisper Script.

(** The three segments of the example. *)
Definition hello_world_segments : list Segment :=
  [ {| text := Some (py "  hello ") |};
    {| text := Some (py "") |};
    {| text := Some (py " world") |} ].

(** The fragment that one segment contributes. *)
Definition fragment (segment : Segment) : pystr := strip (or_empty (text segment)).

(** A logged call hands the library a beam width of at least 1. *)
Definition beam_at_least_one (c : call) : Prop :=
  match c with
  | CallTranscribe _ beam_size _ _ => (1 <= beam_size)%Z
  | _ => True
  end.


(** The first exception that iterating a generator raises. *)
Fixpoint iteration_failure (segments : Segments) : option Exception :=
  match segments with
  | StopIteration => None
  | Yield _ rest => iteration_failure rest
  | Fails exc => Some exc
  end.

(** [raises_in_second_try fw args exc cs]: with the module [fw] imported and
    the namespace [args], the body of the second [try] raises [exc] after
    the library calls [cs]: in the constructor, in [max(1, ...)], in
    [transcribe], or while the segments are iterated. *)
Inductive raises_in_second_try (fw : faster_whisper) (args : Argparse.Namespace)
  (exc : Exception) : list call -> Prop :=
| RaisesInConstructor :
    WhisperModel_init fw (Argparse.model args) (Argparse.device args)
                      (Argparse.compute_type args) = Raises exc ->
    raises_in_second_try fw args exc
      [ CallWhisperModel (Argparse.model args) (Argparse.device args)
                         (Argparse.compute_type args) ]
| RaisesInMax : forall model,
    WhisperModel_init fw (Argparse.model args) (Argparse.device args)
                      (Argparse.compute_type args) = Returns model ->
    (forall z, Argparse.beam_size args <> PyInt z) ->
    exc = not_supported (Argparse.beam_size args) ->
    raises_in_second_try fw args exc
      [ CallWhisperModel (Argparse.model args) (Argparse.device args)
                         (Argparse.compute_type args) ]
| RaisesInTranscribe : forall model z,
    WhisperModel_init fw (Argparse.model args) (Argparse.device args)
                      (Argparse.compute_type args) = Returns model ->
    Argparse.beam_size args = PyInt z ->
    transcribe model (Argparse.audio args) (Z.max 1 z)
               (py_or (Argparse.language args) PyNone)
               (eq_str (Argparse.vad_filter args) (py "true")) = Raises exc ->
    raises_in_second_try fw args exc
      [ CallWhisperModel (Argparse.model args) (Argparse.device args)
                         (Argparse.compute_type args);
        CallTranscribe (Argparse.audio args) (Z.max 1 z)
                       (py_or (Argparse.language args) PyNone)
                       (eq_str (Argparse.vad_filter args) (py "true")) ]
| RaisesInIteration : forall model z segments info,
    WhisperModel_init fw (Argparse.model args) (Argparse.device args)
                      (Argparse.compute_type args) = Returns model ->
    Argparse.beam_size args = PyInt z ->
    transcribe model (Argparse.audio args) (Z.max 1 z)
               (py_or (Argparse.language args) PyNone)
               (eq_str (Argparse.vad_filter args) (py "true"))
      = Returns (segments, info) ->
    iteration_failure segments = Some exc ->
    raises_in_second_try fw args exc
      [ CallWhisperModel (Argparse.model args) (Argparse.device args)
                         (Argparse.compute_type args);
        CallTranscribe (Argparse.audio args) (Z.max 1 z)
                       (py_or (Argparse.language args) PyNone)
                       (eq_str (Argparse.vad_filter args) (py "true")) ].

(** The action that the argument string [s] names, if [_parse_optional]
    finds one for it: [--audio], an abbreviation such as [--aud], or either
    with [=value] attached. *)
Definition named_action (s : pystr) : option Argparse.action :=
  match Argparse.parse_optional s with
  | Argparse.IsOptional t => Argparse.ot_action t
  | _ => None
  end.

(** [s] names the action [a] and carries no value: the value is the next
    argument string. *)
Definition is_flag (a : Argparse.action) (s : pystr) : bool :=
  match Argparse.parse_optional s with
  | Argparse.IsOptional t =>
      match Argparse.ot_action t, Argparse.ot_explicit_arg t with
      | Some b, None => Argparse.action_eqb a b
      | _, _ => false
      end
  | _ => false
  end.

(** The value that [s] attaches to the action [a] with [=]. *)
Definition attached_value (a : Argparse.action) (s : pystr) : option pystr :=
  match Argparse.parse_optional s with
  | Argparse.IsOptional t =>
      match Argparse.ot_action t with
      | Some b => if Argparse.action_eqb a b then Argparse.ot_explicit_arg t else None
      | None => None
      end
  | _ => None
  end.

(** [gives a token strings]: the argument strings [strings] hand [token] to
    the option [a], either as the string after the flag or attached to the
    flag with [=].  The attached token is not the bare [--], which
    [_get_values] removes. *)
Inductive gives (a : Argparse.action) (token : pystr) : list pystr -> Prop :=
| GivesNext : forall flag,
    is_flag a flag = true -> gives a token [flag; token]
| GivesAttached : forall s,
    attached_value a s = Some token -> token <> py "--" -> gives a token [s].

(** [passes a token strings]: the argument strings [strings] hand [token]
    to the option [a] and the parser takes it: as the string after the flag,
    which then must itself not look like an option, or attached with [=]. *)
Inductive passes (a : Argparse.action) (token : pystr) : list pystr -> Prop :=
| PassesNext : forall flag,
    is_flag a flag = true ->
    Argparse.parse_optional token = Argparse.NotOptional ->
    passes a token [flag; token]
| PassesAttached : forall s,
    attached_value a s = Some token -> token <> py "--" -> passes a token [s].

(** No string of [l] names the help action. *)
Definition no_help (l : list pystr) : Prop :=
  forall s, In s l -> named_action s <> Some Argparse.Help.

(** *** A sample environment and sample arguments *)

Definition english : Info := {| language := Some (Some (py "en")) |}.

(** A library that transcribes every file to the three example segments. *)
Definition sample_model : WhisperModel :=
  {| transcribe := fun _ _ _ _ => Returns (yields hello_world_segments, english) |}.

Definition sample_library : faster_whisper :=
  {| WhisperModel_init := fun _ _ _ => Returns sample_model |}.

Definition sample_env : env :=
  {| import_faster_whisper := Returns sample_library;
     format_usage_error := fun _ => py "usage: fast-whisper-transcribe.py";
     format_help := py "usage: fast-whisper-transcribe.py [-h]" |}.

(** A library whose transcription tells the beam width it was given. *)
Definition beam_reporting_model : WhisperModel :=
  {| transcribe := fun _ beam_size _ _ =>
       Returns (yields [ {| text := Some (if (beam_size =? 1)%Z
                                          then py "beam one" else py "wider beam") |} ],
                english) |}.

Definition beam_reporting_env : env :=
  {| import_faster_whisper :=
       Returns {| WhisperModel_init := fun _ _ _ => Returns beam_reporting_model |};
     format_usage_error := format_usage_error sample_env;
     format_help := format_help sample_env |}.







(** [--audio a.wav] and the namespace it parses to. *)
Definition audio_only : list pystr := [py "--audio"; py "a.wav"].

Definition audio_only_args : Argparse.Namespace :=
  Argparse.setattr Argparse.defaults Argparse.Audio (PyStr (py "a.wav")).

End Statements.

(** ** Vocabulary of the parser lemmas *)

Module Loop.

Import Py Argparse.

(** What remains of [parse_args] once the main loop has ended. *)
Definition after_loop (r : parse state) : parse Namespace :=
  bind (bind r (fun st =>
          if existsb (action_eqb Audio) (seen_actions st)
          then Done (namespace st, extras st)
          else Exit (UsageError (RequiredArguments [Audio]))))
       (fun '(ns, argv) =>
          match argv with
          | [] => Done ns
          | _ :: _ => Exit (UsageError (UnrecognizedArguments argv))
          end).

(** [verdict strict r]: [r] ends the process; with [strict], by a usage
    error. *)
Definition verdict (strict : bool) (r : parse Namespace) : Prop :=
  exists x, r = Exit x /\ (strict = true -> exists err, x = UsageError err).

(** Each item carries a string of the list; an [O] carries the tuple that
    [_parse_optional] gives for its string. *)
Definition item_of (l : list pystr) (it : pystr * pattern) : Prop :=
  In (fst it) l
  /\ match snd it with
     | O t => parse_optional (fst it) = IsOptional t
     | _ => True
     end.

(** The actions of the items satisfy [ok]. *)
Definition item_allows (ok : action -> Prop) (it : pystr * pattern) : Prop :=
  match snd it with
  | O t => match ot_action t with Some a => ok a | None => True end
  | _ => True
  end.

(** The items do not start with an argument. *)
Definition head_not_argument (X : list (pystr * pattern)) : Prop :=
  match X with
  | (_, A) :: _ => False
  | _ => True
  end.

(** [allowed strict a]: under [strict], [a] is not the help action. *)
Definition allowed (strict : bool) (a : action) : Prop :=
  strict = true -> a <> Help.

(** Two values that [max(1, ...)] does not tell apart. *)
Definition clamp_eq (v v1 : pyval) : Prop :=
  v = v1
  \/ exists z z1, v = PyInt z /\ v1 = PyInt z1 /\ Z.max 1 z = Z.max 1 z1.

(** Two namespaces that differ at most in a beam size below the clamp. *)
Definition same_but_beam (ns ns1 : Namespace) : Prop :=
  audio ns = audio ns1
  /\ model ns = model ns1
  /\ device ns = device ns1
  /\ compute_type ns = compute_type ns1
  /\ language ns = language ns1
  /\ vad_filter ns = vad_filter ns1
  /\ clamp_eq (beam_size ns) (beam_size ns1).

Definition related (st st1 : state) : Prop :=
  same_but_beam (namespace st) (namespace st1)
  /\ seen_actions st = seen_actions st1
  /\ extras st = extras st1.

(** Two parses end alike: in related results or by the same exit. *)
Definition same_outcome {X : Type} (rel : X -> X -> Prop) (r r1 : parse X) : Prop :=
  match r, r1 with
  | Done x, Done x1 => rel x x1
  | Exit x, Exit x1 => x = x1
  | _, _ => False
  end.

End Loop.

(** ** Vocabulary of the further properties *)

Module Coverage.

Import Py Whisper Script Argparse.

(** [getattr(namespace, action.dest)] *)
Definition field (ns : Namespace) (a : action) : pyval :=
  match a with
  | Help => PyNone
  | Audio => audio ns
  | Model => model ns
  | Device => device ns
  | ComputeType => compute_type ns
  | Language => language ns
  | BeamSize => beam_size ns
  | VadFilter => vad_filter ns
  end.

(** What a store of the action [a] can leave in the namespace: the
    converted string, or the empty list when the attached value was the bare
    [--]. *)
Definition stored (a : action) (v : pyval) : Prop :=
  match a with
  | Help => False
  | BeamSize => (exists z, v = PyInt z) \/ v = PyList []
  | VadFilter => v = PyStr (py "true") \/ v = PyStr (py "false") \/ v = PyList []
  | _ => (exists s, v = PyStr s) \/ v = PyList []
  end.

(** Every attribute is its default or was stored; [--audio], once seen, was
    stored. *)
Definition typed (st : state) : Prop :=
  (forall a, takes_argument a = true ->
             field (namespace st) a = field defaults a
             \/ stored a (field (namespace st) a))
  /\ (existsb (action_eqb Audio) (seen_actions st) = true ->
      stored Audio (audio (namespace st))).

(** The language hint of a logged call is [None] or a non-empty string. *)
Definition language_hint_ok (c : call) : Prop :=
  match c with
  | CallTranscribe _ _ l _ => l = PyNone \/ exists c s, l = PyStr (c :: s)
  | _ => True
  end.

(** [accepted argv actions]: [argv] is a sequence of options, each with a
    value that its action converts and accepts, passed as the next string or
    attached with [=]; [actions] are the actions named, in order.  An
    attached bare [--] counts as accepted: it is removed before the
    conversion. *)
Inductive accepted : list pystr -> list action -> Prop :=
| AcceptedNil : accepted [] []
| AcceptedValue : forall a token given rest actions v,
    takes_argument a = true ->
    Statements.passes a token given ->
    get_value a token = Done v ->
    check_value a v = Done tt ->
    accepted rest actions ->
    accepted (given ++ rest) (a :: actions)
| AcceptedSeparator : forall a s rest actions,
    takes_argument a = true ->
    Statements.attached_value a s = Some (py "--") ->
    accepted rest actions ->
    accepted (s :: rest) (a :: actions).

(** [_parse_optional] finds more than one option for the string. *)
Definition ambiguous (s : pystr) : bool :=
  match parse_optional s with
  | Ambiguous _ => true
  | _ => false
  end.

(** The long option strings of the parser. *)
Definition long_options : list (pystr * action) := tl option_string_actions.

(** A string without white space at either end. *)
Definition trimmed (s : pystr) : Prop :=
  (forall c rest, s = c :: rest -> isspace c = false)
  /\ (forall front c, s = front ++ [c] -> isspace c = false).

(** [s.isspace()], or [s] is empty or missing. *)
Definition blank (o : option pystr) : bool := forallb isspace (or_empty o).

End Coverage.

(** ** Theorems *)

Unset Implicit Arguments.

Import Py Whisper Script Statements.

(** *** The monad and the generator *)

Lemma stripped_texts_yields (l : list Segment) (w : world) :
  stripped_texts (yields l) w = (inl (map fragment l), w).
Proof.
  induction l as [|segment l IH]; simpl.
  - reflexivity.
  - unfold mbind. rewrite IH. reflexivity.
Qed.

Lemma stripped_texts_fails (segments : Segments) (exc : Exception) (w : world) :
  iteration_failure segments = Some exc ->
  stripped_texts segments w = (inr (Exc exc), w).
Proof.
  induction segments as [|segment rest IH|exc']; simpl; intros H.
  - discriminate.
  - unfold mbind. rewrite (IH H). reflexivity.
  - injection H as ->. reflexivity.
Qed.

(** A generator either runs to its end, yielding a list, or fails. *)
Lemma generator_cases (segments : Segments) :
  (exists l, segments = yields l) \/ (exists exc, iteration_failure segments = Some exc).
Proof.
  induction segments as [|segment rest IH|exc]; simpl.
  - left. exists []. reflexivity.
  - destruct IH as [[l ->]|[exc H]].
    + left. exists (segment :: l). reflexivity.
    + right. exists exc. exact H.
  - right. exists exc. reflexivity.
Qed.

Lemma joined_text_yields (l : list Segment) (w : world) :
  joined_text (yields l) w = (inl (strip (join (py " ") (map fragment l))), w).
Proof.
  unfold joined_text, mbind. rewrite stripped_texts_yields. reflexivity.
Qed.

Lemma joined_text_fails (segments : Segments) (exc : Exception) (w : world) :
  iteration_failure segments = Some exc ->
  joined_text segments w = (inr (Exc exc), w).
Proof.
  intros H. unfold joined_text, mbind. rewrite (stripped_texts_fails _ _ w H). reflexivity.
Qed.

(** *** Segment texts *)

(** C1, as stated, fails: the three texts ["  hello "], [""], [" world"]
    do not reduce to ["hello world"]; the empty fragment is joined like any
    other, so two spaces separate the words. *)
Lemma hello_world_single_space_counterexample :
  joined_text (yields hello_world_segments) initial_world
    <> (inl (py "hello world"), initial_world)
  /\ joined_text (yields hello_world_segments) initial_world
       = (inl (py "hello  world"), initial_world).
Proof.
  rewrite joined_text_yields. split.
  - vm_compute. discriminate.
  - vm_compute. reflexivity.
Qed.

(** C1, amended: the text is the trimmed join, with single spaces, of the
    trimmed text of every segment, where a missing text counts as the empty
    string and an empty fragment is joined like the others; the texts
    ["  hello "], [""], [" world"] give ["hello  world"], with two spaces. *)
Theorem segment_texts_joined_with_empty_fragments (l : list Segment) (w : world) :
  joined_text (yields l) w
    = (inl (strip (join (py " ") (map (fun s => strip (or_empty (text s))) l))), w)
  /\ joined_text (yields hello_world_segments) w = (inl (py "hello  world"), w).
Proof.
  split.
  - apply joined_text_yields.
  - rewrite joined_text_yields. vm_compute. reflexivity.
Qed.

(** *** The language field *)

(** C2: the [language] item of the payload is the [language] attribute of
    [info] when the attribute is present and truthy, and the empty string
    when it is absent, [None] or empty; the item is always there and always
    a string. *)
Theorem payload_language_normalised (text : pystr) (info : Info) :
  payload text info
    = [ (py "text", text);
        (py "language",
         match language info with
         | Some (Some s) => if truthy (PyStr s) then s else py ""
         | Some None => py ""
         | None => py ""
         end) ].
Proof.
  unfold payload, getattr_language.
  destruct (language info) as [[[|c s]|]|]; reflexivity.
Qed.

(** *** Running [main] *)

Ltac run_script :=
  unfold run, run_after_parse, finish, main, main_after_parse, Script.parse_args,
    transcribe_and_print, try_except, mbind, lib, max_1, print, print_stderr,
    write_stdout, write_stderr, ret, raise, initial_world;
  simpl.

Lemma run_parsed (e : env) (argv : list pystr) (args : Argparse.Namespace) :
  Argparse.parse_args argv = Argparse.Done args ->
  run e argv = run_after_parse e args.
Proof.
  intros H. unfold run, run_after_parse, main, Script.parse_args, mbind, finish.
  rewrite H. reflexivity.
Qed.

Lemma run_usage_error (e : env) (argv : list pystr) (err : Argparse.arg_error) :
  Argparse.parse_args argv = Argparse.Exit (Argparse.UsageError err) ->
  run e argv = {| exit_status := 2;
                  standard_output := [];
                  standard_error := format_usage_error e err;
                  library_calls := [] |}.
Proof.
  intros H. unfold run, main, Script.parse_args, finish, mbind. rewrite H. reflexivity.
Qed.

Lemma run_help (e : env) (argv : list pystr) :
  Argparse.parse_args argv = Argparse.Exit Argparse.HelpExit ->
  run e argv = {| exit_status := 0;
                  standard_output := format_help e;
                  standard_error := [];
                  library_calls := [] |}.
Proof.
  intros H. unfold run, main, Script.parse_args, finish, mbind. rewrite H. reflexivity.
Qed.

(** The run when the import raises. *)
Lemma run_import_raises (e : env) (args : Argparse.Namespace) (exc : Exception) :
  import_faster_whisper e = Raises exc ->
  run_after_parse e args
    = {| exit_status := 2;
         standard_output := [];
         standard_error := py "faster-whisper import failed: " ++ exc_str exc ++ newline;
         library_calls := [CallImport] |}.
Proof.
  intros H. run_script. rewrite H. reflexivity.
Qed.

(** The run when the second [try] raises. *)
Lemma run_second_try_raises (e : env) (args : Argparse.Namespace)
  (fw : faster_whisper) (exc : Exception) (cs : list call) :
  import_faster_whisper e = Returns fw ->
  raises_in_second_try fw args exc cs ->
  run_after_parse e args
    = {| exit_status := 1;
         standard_output := [];
         standard_error := py "transcribe failed: " ++ exc_str exc ++ newline;
         library_calls := CallImport :: cs |}.
Proof.
  intros Himp H. run_script. rewrite Himp.
  destruct H as [H | model H Hint -> | model z H Hz Ht | model z segments info H Hz Ht Hf];
    rewrite H.
  - reflexivity.
  - destruct (Argparse.beam_size args) as [|z| |] eqn:E;
      try reflexivity.
    exfalso. exact (Hint z eq_refl).
  - rewrite Hz, Ht. reflexivity.
  - rewrite Hz, Ht. rewrite (joined_text_fails _ _ _ Hf). reflexivity.
Qed.

(** The run when nothing raises. *)
Lemma run_success (e : env) (args : Argparse.Namespace) (fw : faster_whisper)
  (model : WhisperModel) (z : Z) (l : list Segment) (info : Info) :
  import_faster_whisper e = Returns fw ->
  WhisperModel_init fw (Argparse.model args) (Argparse.device args)
                    (Argparse.compute_type args) = Returns model ->
  Argparse.beam_size args = PyInt z ->
  transcribe model (Argparse.audio args) (Z.max 1 z)
             (py_or (Argparse.language args) PyNone)
             (eq_str (Argparse.vad_filter args) (py "true"))
    = Returns (yields l, info) ->
  run_after_parse e args
    = {| exit_status := 0;
         standard_output :=
           dumps (payload (strip (join (py " ") (map fragment l))) info) ++ newline;
         standard_error := [];
         library_calls :=
           [ CallImport;
             CallWhisperModel (Argparse.model args) (Argparse.device args)
                              (Argparse.compute_type args);
             CallTranscribe (Argparse.audio args) (Z.max 1 z)
                            (py_or (Argparse.language args) PyNone)
                            (eq_str (Argparse.vad_filter args) (py "true")) ] |}.
Proof.
  intros Himp Hinit Hz Ht. run_script. rewrite Himp, Hinit, Hz, Ht.
  rewrite joined_text_yields. reflexivity.
Qed.

(** Every run after parsing is one of the three above. *)
Lemma run_after_parse_cases (e : env) (args : Argparse.Namespace) :
  (exists exc, import_faster_whisper e = Raises exc)
  \/ (exists fw exc cs, import_faster_whisper e = Returns fw
                        /\ raises_in_second_try fw args exc cs)
  \/ (exists fw model z l info,
        import_faster_whisper e = Returns fw
        /\ WhisperModel_init fw (Argparse.model args) (Argparse.device args)
                             (Argparse.compute_type args) = Returns model
        /\ Argparse.beam_size args = PyInt z
        /\ transcribe model (Argparse.audio args) (Z.max 1 z)
                      (py_or (Argparse.language args) PyNone)
                      (eq_str (Argparse.vad_filter args) (py "true"))
             = Returns (yields l, info)).
Proof.
  destruct (import_faster_whisper e) as [fw|exc] eqn:Himp.
  2: { left. exists exc. reflexivity. }
  right.
  destruct (WhisperModel_init fw (Argparse.model args) (Argparse.device args)
              (Argparse.compute_type args)) as [model|exc] eqn:Hinit.
  2: { left. exists fw, exc. eexists. split; [reflexivity|].
       apply RaisesInConstructor. exact Hinit. }
  destruct (Argparse.beam_size args) as [|z|s|vs] eqn:Hz.
  1, 3, 4: left; exists fw; eexists; eexists; split; [reflexivity|];
    eapply RaisesInMax; [exact Hinit | rewrite Hz; discriminate | reflexivity].
  destruct (transcribe model (Argparse.audio args) (Z.max 1 z)
              (py_or (Argparse.language args) PyNone)
              (eq_str (Argparse.vad_filter args) (py "true")))
    as [[segments info]|exc] eqn:Ht.
  2: { left. exists fw, exc. eexists. split; [reflexivity|].
       eapply RaisesInTranscribe; eauto. }
  destruct (generator_cases segments) as [[l ->]|[exc Hf]].
  - right. exists fw, model, z, l, info. auto.
  - left. exists fw, exc. eexists. split; [reflexivity|].
    eapply RaisesInIteration; eauto.
Qed.

(** No [Exception] escapes [main]: the two handlers catch whatever the
    library raises, and [parse_args] raises [SystemExit] only. *)
Lemma try_except_catches {X : Type} (body : M X) (handler : Exception -> M X) :
  (forall exc w, exists x w', handler exc w = (inl x, w')) ->
  forall w exc, fst (try_except body handler w) <> inr (Exc exc).
Proof.
  intros H w exc. unfold try_except.
  destruct (body w) as [[x|[code|exc']] w']; simpl; try discriminate.
  destruct (H exc' w') as (x & w'' & ->). discriminate.
Qed.

Lemma main_catches_exceptions (e : env) (argv : list pystr) (w : world) (exc : Exception) :
  fst (main e argv w) <> inr (Exc exc).
Proof.
  unfold main, mbind, Script.parse_args.
  destruct (Argparse.parse_args argv) as [args|[err|]]; simpl; try discriminate.
  unfold main_after_parse, mbind.
  match goal with
  | |- context [try_except ?b ?h w] =>
      pose proof (try_except_catches b h) as H1;
      destruct (try_except b h w) as [[[code|fw]|r] w'] eqn:E
  end.
  - simpl. discriminate.
  - apply try_except_catches. intros exc' w''. unfold mbind, print_stderr, write_stderr, ret.
    simpl. eauto.
  - simpl. intros Heq. injection Heq as ->.
    refine (H1 _ w exc _).
    + intros exc' w''. unfold mbind, print_stderr, write_stderr, ret. simpl. eauto.
    + rewrite E. reflexivity.
Qed.

Lemma raises_in_second_try_beam (fw : faster_whisper) (args : Argparse.Namespace)
  (exc : Exception) (cs : list call) :
  raises_in_second_try fw args exc cs -> Forall beam_at_least_one cs.
Proof.
  intros H; destruct H; repeat constructor; simpl; lia.
Qed.

Lemma run_after_parse_beam (e : env) (args : Argparse.Namespace) :
  Forall beam_at_least_one (library_calls (run_after_parse e args)).
Proof.
  destruct (run_after_parse_cases e args)
    as [[exc H]|[(fw & exc & cs & Himp & H)|(fw & model & z & l & info & Himp & Hinit & Hz & Ht)]].
  - rewrite (run_import_raises _ _ _ H). repeat constructor.
  - rewrite (run_second_try_raises _ _ _ _ _ Himp H). simpl. constructor; [exact I|].
    eapply raises_in_second_try_beam; eauto.
  - rewrite (run_success _ _ _ _ _ _ _ Himp Hinit Hz Ht). repeat constructor; simpl; lia.
Qed.

Lemma run_beam (e : env) (argv : list pystr) :
  Forall beam_at_least_one (library_calls (run e argv)).
Proof.
  destruct (Argparse.parse_args argv) as [args|[err|]] eqn:H.
  - rewrite (run_parsed _ _ _ H). apply run_after_parse_beam.
  - rewrite (run_usage_error _ _ _ H). constructor.
  - rewrite (run_help _ _ H). constructor.
Qed.

(** *** Failures *)





(** C9: after parsing, a run either succeeds, returning 0 with one
    complete payload line on standard output, or fails, returning 1 or 2
    with nothing at all on standard output. *)
Theorem payload_or_nothing (e : env) (args : Argparse.Namespace) :
  let p := run_after_parse e args in
  (exit_status p = 0%Z
   /\ exists text info, standard_output p = dumps (payload text info) ++ newline)
  \/ ((exit_status p = 1%Z \/ exit_status p = 2%Z)
      /\ standard_output p = []
      /\ standard_error p <> []).
Proof.
  intros p. subst p.
  destruct (run_after_parse_cases e args)
    as [[exc H]|[(fw & exc & cs & Himp & H)|(fw & model & z & l & info & Himp & Hinit & Hz & Ht)]].
  - right. rewrite (run_import_raises _ _ _ H). simpl. repeat split; auto. discriminate.
  - right. rewrite (run_second_try_raises _ _ _ _ _ Himp H). simpl. repeat split; auto. discriminate.
  - left. rewrite (run_success _ _ _ _ _ _ _ Himp Hinit Hz Ht). simpl. split; eauto.
Qed.
(** *** The JSON line *)

Local Open Scope N_scope.














(** *** The argument parser *)

Import Argparse Loop.

Lemma parse_args_unfold (argv : list pystr) :
  Argparse.parse_args argv
    = match arg_strings_pattern argv with
      | Done items => after_loop (consume items initial_state)
      | Exit x => Exit x
      end.
Proof.
  unfold Argparse.parse_args, parse_known_args, after_loop.
  destruct (arg_strings_pattern argv); reflexivity.
Qed.

Lemma verdict_usage (strict : bool) (err : arg_error) :
  verdict strict (Exit (UsageError err)).
Proof. exists (UsageError err). split; [reflexivity|]. intros _. exists err. reflexivity. Qed.

Lemma verdict_help : verdict false (Exit HelpExit).
Proof. exists HelpExit. split; [reflexivity|discriminate]. Qed.

(** Classification can only fail with a usage error. *)
Lemma pattern_exit (l : list pystr) (x : exit) :
  arg_strings_pattern l = Exit x -> exists err, x = UsageError err.
Proof.
  revert x. induction l as [|s l IH]; simpl; intros x H.
  - discriminate.
  - destruct (str_eqb s (py "--")); [discriminate|].
    destruct (parse_optional s).
    + destruct (arg_strings_pattern l); simpl in H; [discriminate|].
      injection H as <-. apply IH. reflexivity.
    + destruct (arg_strings_pattern l); simpl in H; [discriminate|].
      injection H as <-. apply IH. reflexivity.
    + injection H as <-. eexists. reflexivity.
Qed.

Lemma str_eqb_eq (a b : pystr) : str_eqb a b = true <-> a = b.
Proof.
  revert b. induction a as [|x a IH]; destruct b as [|y b]; simpl;
    try (split; (discriminate || reflexivity)).
  rewrite andb_true_iff, N.eqb_eq, IH. split.
  - intros [-> ->]. reflexivity.
  - intros H. injection H as -> ->. split; reflexivity.
Qed.

Lemma str_eqb_neq (a b : pystr) : str_eqb a b = false <-> a <> b.
Proof.
  rewrite <- str_eqb_eq. destruct (str_eqb a b); split; congruence.
Qed.

(** The pattern of a concatenation whose first part holds no [--]. *)
Lemma pattern_app (pre rest : list pystr) :
  ~ In (py "--") pre ->
  arg_strings_pattern (pre ++ rest)
    = bind (arg_strings_pattern pre) (fun ip =>
      bind (arg_strings_pattern rest) (fun ir => Done (ip ++ ir))).
Proof.
  induction pre as [|s pre IH]; intros Hno.
  - simpl. destruct (arg_strings_pattern rest); reflexivity.
  - simpl in Hno. simpl arg_strings_pattern.
    assert (Hs : str_eqb s (py "--") = false).
    { apply str_eqb_neq. intros ->. apply Hno. left. reflexivity. }
    rewrite Hs. rewrite IH by tauto.
    destruct (parse_optional s); try reflexivity;
      destruct (arg_strings_pattern pre); simpl; try reflexivity;
      destruct (arg_strings_pattern rest); reflexivity.
Qed.

Lemma pattern_items (l : list pystr) (items : list (pystr * pattern)) :
  arg_strings_pattern l = Done items -> Forall (item_of l) items.
Proof.
  revert items. induction l as [|s l IH]; simpl; intros items H.
  - injection H as <-. constructor.
  - destruct (str_eqb s (py "--")).
    + injection H as <-. constructor.
      * split; simpl; auto.
      * apply Forall_forall. intros it Hit. apply in_map_iff in Hit.
        destruct Hit as (s' & <- & Hs'). split; simpl; auto.
    + destruct (parse_optional s) as [|t|] eqn:Hp; try discriminate;
        destruct (arg_strings_pattern l) as [items'|]; simpl in H; try discriminate;
        injection H as <-; constructor;
        try (split; simpl; auto);
        (eapply Forall_impl; [|apply IH; reflexivity]);
        intros it [H1 H2]; split; simpl; auto.
Qed.

(** The help action always ends the process. *)
Lemma take_action_help (args : list pystr) (st : state) :
  exists x, take_action Help args st = Exit x.
Proof.
  unfold take_action. destruct (get_values Help args) as [v|x]; simpl; eauto.
Qed.

(** A store action never prints the help. *)
Lemma take_action_store (a : action) (args : list pystr) (st : state) :
  takes_argument a = true ->
  (exists st', take_action a args st = Done st'
               /\ seen_actions st' = a :: seen_actions st
               /\ extras st' = extras st)
  \/ (exists err, take_action a args st = Exit (UsageError err)).
Proof.
  intros Ha. unfold take_action.
  assert (Hv : (exists v, get_values a args = Done v)
               \/ (exists err, get_values a args = Exit (UsageError err))).
  { unfold get_values. rewrite Ha.
    assert (Hg : forall s, (exists v, get_value a s = Done v)
                           \/ (exists err, get_value a s = Exit (UsageError err))).
    { intros s. unfold get_value. destruct a; eauto. destruct (int s); eauto. }
    assert (Hc : forall v, check_value a v = Done tt
                           \/ (exists err, check_value a v = Exit (UsageError err))).
    { intros v. unfold check_value. destruct a; eauto.
      destruct (eq_str v (py "true") || eq_str v (py "false")); eauto. }
    assert (Hgl : forall l, (exists vs, get_value_list a l = Done vs)
                            \/ (exists err, get_value_list a l = Exit (UsageError err))).
    { induction l as [|s l IH]; simpl; eauto.
      destruct (Hg s) as [[v ->]|[err ->]]; simpl; eauto.
      destruct IH as [[vs ->]|[err ->]]; simpl; eauto. }
    assert (Hcl : forall l, check_value_list a l = Done tt
                            \/ (exists err, check_value_list a l = Exit (UsageError err))).
    { induction l as [|v l IH]; simpl; eauto.
      destruct (Hc v) as [->|[err ->]]; simpl; eauto. }
    destruct (remove_first (py "--") args) as [|s [|s' l]].
    - destruct (Hgl []) as [[vs ->]|[err ->]]; simpl; eauto.
      destruct (Hcl vs) as [->|[err ->]]; simpl; eauto.
    - destruct (Hg s) as [[v ->]|[err ->]]; simpl; eauto.
      destruct (Hc v) as [->|[err ->]]; simpl; eauto.
    - destruct (Hgl (s :: s' :: l)) as [[vs ->]|[err ->]]; simpl; eauto.
      destruct (Hcl vs) as [->|[err ->]]; simpl; eauto. }
  destruct Hv as [[v ->]|[err ->]]; simpl.
  - left. destruct a; try discriminate; eexists; repeat split.
  - right. eauto.
Qed.

(** With an explicit argument, a store action takes just that argument. *)
Lemma explicit_loop_store (a : action) (os e : pystr) :
  takes_argument a = true ->
  explicit_loop a os e = inr ([(a, [e])], None).
Proof.
  intros Ha. destruct e as [|c e]; simpl; rewrite Ha; reflexivity.
Qed.

(** With an explicit argument, the help action fails or comes first. *)
Lemma explicit_loop_help (os e : pystr) :
  (exists err, explicit_loop Help os e = inl err)
  \/ (exists l k, explicit_loop Help os e = inr ((Help, []) :: l, k)).
Proof.
  destruct e as [|c e]; cbn -[lookup].
  - left. eauto.
  - destruct (negb match os with _ :: 45%N :: _ => true | _ => false end);
      [|left; eauto].
    destruct (lookup [45%N; c] option_string_actions) as [a'|]; [|left; eauto].
    destruct e as [|c' e]; [right; eauto|].
    match goal with
    | |- context [match ?r with inl _ => _ | inr _ => _ end] =>
        destruct r as [err|[l k]]; eauto
    end.
Qed.

Lemma take_actions_help_first (l : list (action * list pystr)) (st : state) :
  exists x, take_actions ((Help, []) :: l) st = Exit x.
Proof.
  cbn [take_actions]. destruct (take_action_help [] st) as [x ->]. simpl. eauto.
Qed.

(** An item of the help action ends the process, whatever follows. *)
Lemma consume_help (s os : pystr) (oe : option pystr) (rest : list (pystr * pattern)) (st : state) :
  exists x, consume ((s, O (OptionTuple (Some Help) os oe)) :: rest) st = Exit x.
Proof.
  cbn [consume ot_action ot_explicit_arg ot_option_string].
  destruct oe as [e|].
  - destruct (explicit_loop_help os e) as [[err ->]|(l & k & ->)]; [eauto|].
    destruct k as [a'|].
    + destruct (takes_argument a').
      * destruct rest as [|[arg [|t|]] rest']; eauto.
        destruct (take_actions_help_first (l ++ [(a', [arg])]) st) as [x Hx].
        rewrite <- app_comm_cons. rewrite Hx. simpl. eauto.
      * destruct (take_actions_help_first (l ++ [(a', [])]) st) as [x Hx].
        rewrite <- app_comm_cons. rewrite Hx. simpl. eauto.
    + destruct (take_actions_help_first l st) as [x ->]. simpl. eauto.
  - cbn [takes_argument app].
    destruct (take_actions_help_first [] st) as [x ->]. simpl. eauto.
Qed.

(** The main loop over a prefix of the items.  [I] is kept by the store
    actions of the prefix and [R] holds of every usage error, of the help
    exit when the prefix may hold the help action, and of the loop over the
    rest, which does not start with an argument: then [R] holds of the loop
    over the whole. *)
Lemma consume_prefix (ok : action -> Prop) (I : state -> Prop)
  (R : parse state -> Prop) (X : list (pystr * pattern)) :
  (forall err, R (Exit (UsageError err))) ->
  (ok Help -> R (Exit HelpExit)) ->
  (forall s st, I st -> I (add_extra s st)) ->
  (forall a args st st', ok a -> I st -> take_action a args st = Done st' -> I st') ->
  head_not_argument X ->
  (forall st, I st -> R (consume X st)) ->
  forall ipre st, Forall (item_allows ok) ipre -> I st -> R (consume (ipre ++ X) st).
Proof.
  intros Husage Hhelp Hextra Htake Hhead HX ipre.
  remember (List.length ipre) as n eqn:Hn. revert ipre Hn.
  induction n as [n IH] using lt_wf_ind. intros ipre Hn st Hall Hst.
  destruct ipre as [|[s p] rest].
  - apply HX. exact Hst.
  - inversion Hall as [|? ? Hit Hrest]; subst. simpl in IH.
    destruct p as [|t|].
    + simpl. apply (IH (List.length rest)); auto.
    + destruct t as [[a|] os oe].
      * unfold item_allows in Hit. simpl in Hit.
        destruct (takes_argument a) eqn:Ha.
        -- rewrite <- app_comm_cons.
           cbn [consume ot_action ot_explicit_arg ot_option_string].
           destruct oe as [e|].
           ++ rewrite (explicit_loop_store a os e Ha). cbn [take_actions].
              destruct (take_action_store a [e] st Ha) as [(st' & Hst' & _)|[err Herr]].
              ** rewrite Hst'. simpl.
                 apply (IH (List.length rest)); auto.
                 eapply Htake; eauto.
              ** rewrite Herr. simpl. apply Husage.
           ++ rewrite Ha. destruct rest as [|[arg p'] rest'].
              ** simpl app.
                 destruct X as [|[s' [|t'|]] X']; simpl in Hhead;
                   try contradiction; apply Husage.
              ** rewrite <- app_comm_cons. destruct p'; try apply Husage.
                 cbn [app take_actions].
                 destruct (take_action_store a [arg] st Ha)
                   as [(st' & Hst' & _)|[err Herr]].
                 --- rewrite Hst'. simpl.
                     inversion Hrest; subst.
                     apply (IH (List.length rest')); simpl; auto.
                     eapply Htake; eauto.
                 --- rewrite Herr. simpl. apply Husage.
        -- destruct a; try discriminate.
           rewrite <- app_comm_cons.
           destruct (consume_help s os oe (rest ++ X) st) as [x ->].
           destruct x; [apply Husage|apply Hhelp; exact Hit].
      * simpl. apply (IH (List.length rest)); auto.
    + simpl. apply (IH (List.length rest)); auto.
Qed.

(** The strings after [--] all go to [extras]. *)
Lemma consume_arguments (l : list pystr) (st : state) :
  consume (map (fun s => (s, A)) l) st
    = Done {| namespace := namespace st;
              seen_actions := seen_actions st;
              extras := extras st ++ l |}.
Proof.
  revert st. induction l as [|s l IH]; intros st; simpl.
  - rewrite app_nil_r. destruct st; reflexivity.
  - rewrite IH. simpl. rewrite <- app_assoc. reflexivity.
Qed.

(** Strings left in [extras] are a usage error. *)
Lemma after_loop_extras (st : state) :
  extras st <> [] -> exists err, after_loop (Done st) = Exit (UsageError err).
Proof.
  intros H. unfold after_loop. simpl.
  destruct (existsb (action_eqb Audio) (seen_actions st)); simpl; [|eauto].
  destruct (extras st); [contradiction|eauto].
Qed.

(** [--audio] not seen is a usage error. *)
Lemma after_loop_required (st : state) :
  existsb (action_eqb Audio) (seen_actions st) = false ->
  exists err, after_loop (Done st) = Exit (UsageError err).
Proof.
  intros H. unfold after_loop. simpl. rewrite H. simpl. eauto.
Qed.

Lemma items_allow (ok : action -> Prop) (l : list pystr) (items : list (pystr * pattern)) :
  arg_strings_pattern l = Done items ->
  (forall s a, In s l -> named_action s = Some a -> ok a) ->
  Forall (item_allows ok) items.
Proof.
  intros Hp Hok. eapply Forall_impl; [|exact (pattern_items l items Hp)].
  intros [s p] [Hin Ht]. unfold item_allows. simpl in *.
  destruct p as [|t|]; auto.
  destruct (ot_action t) as [a|] eqn:Ha; auto.
  apply (Hok s a Hin). unfold named_action. rewrite Ht. exact Ha.
Qed.

Lemma no_help_allowed (strict : bool) (l : list pystr) :
  (strict = true -> no_help l) ->
  forall s a, In s l -> named_action s = Some a -> allowed strict a.
Proof.
  intros H s a Hin Ha Hs ->. exact (H Hs s Hin Ha).
Qed.

Lemma verdict_help_allowed (strict : bool) :
  allowed strict Help -> verdict strict (Exit HelpExit).
Proof.
  intros H. destruct strict.
  - exfalso. apply H; reflexivity.
  - apply verdict_help.
Qed.

(** The loop over a prefix without constraints on the state. *)
Lemma consume_prefix_verdict (strict : bool) (X ipre : list (pystr * pattern)) (st : state) :
  head_not_argument X ->
  (forall st', verdict strict (after_loop (consume X st'))) ->
  Forall (item_allows (allowed strict)) ipre ->
  verdict strict (after_loop (consume (ipre ++ X) st)).
Proof.
  intros Hhead HX Hall.
  apply (consume_prefix (allowed strict) (fun _ => True)
           (fun r => verdict strict (after_loop r)) X); auto.
  - intros err. apply verdict_usage.
  - apply verdict_help_allowed.
Qed.

(** A [--] among the argument strings is rejected, there being no
    positional argument to take what follows it. *)
Lemma separator_rejected (strict : bool) (p1 p2 : list pystr) :
  ~ In (py "--") p1 ->
  (strict = true -> no_help p1) ->
  verdict strict (Argparse.parse_args (p1 ++ py "--" :: p2)).
Proof.
  intros Hno Hhelp. rewrite parse_args_unfold, (pattern_app p1 _ Hno).
  destruct (arg_strings_pattern p1) as [ip|x] eqn:Hp; simpl bind.
  2: { destruct (pattern_exit _ _ Hp) as [err ->]. apply verdict_usage. }
  change (arg_strings_pattern (py "--" :: p2))
    with (Done ((py "--", Dash) :: map (fun s => (s, A)) p2)).
  simpl bind.
  apply consume_prefix_verdict.
  - exact I.
  - intros st'. cbn [consume]. rewrite consume_arguments.
    destruct (after_loop_extras
                {| namespace := namespace (add_extra (py "--") st');
                   seen_actions := seen_actions (add_extra (py "--") st');
                   extras := extras (add_extra (py "--") st') ++ p2 |}) as [err ->].
    + simpl. intros H. apply app_eq_nil in H. destruct H as [H _].
      apply app_eq_nil in H. destruct H as [_ H]. discriminate.
    + apply verdict_usage.
  - apply (items_allow _ p1 ip Hp). apply no_help_allowed. exact Hhelp.
Qed.

(** The first occurrence of a string in a list. *)
Lemma first_occurrence (x : pystr) (l : list pystr) :
  In x l -> exists l1 l2, l = l1 ++ x :: l2 /\ ~ In x l1.
Proof.
  induction l as [|y l IH]; intros H; [contradiction|].
  destruct (str_eqb y x) eqn:E.
  - apply str_eqb_eq in E. subst y. exists [], l. split; [reflexivity|auto].
  - apply str_eqb_neq in E. destruct H as [H|H]; [contradiction|].
    destruct (IH H) as (l1 & l2 & -> & Hno).
    exists (y :: l1), l2. split; [reflexivity|].
    intros [H'|H']; [apply E; exact H'|exact (Hno H')].
Qed.

Lemma in_dash_dec (l : list pystr) : {In (py "--") l} + {~ In (py "--") l}.
Proof. apply in_dec. apply list_eq_dec. apply N.eq_dec. Qed.

(** What [is_flag] and [attached_value] say of [_parse_optional]. *)
Lemma is_flag_tuple (a : action) (s : pystr) :
  is_flag a s = true ->
  exists os, parse_optional s = IsOptional (OptionTuple (Some a) os None).
Proof.
  unfold is_flag. destruct (parse_optional s) as [|[[b|] os [e|]]|]; simpl;
    try discriminate.
  intros H. exists os. destruct a, b; try discriminate; reflexivity.
Qed.

Lemma attached_value_tuple (a : action) (s token : pystr) :
  attached_value a s = Some token ->
  exists os, parse_optional s = IsOptional (OptionTuple (Some a) os (Some token)).
Proof.
  unfold attached_value. destruct (parse_optional s) as [|[[b|] os e]|]; simpl;
    try discriminate.
  destruct (action_eqb a b) eqn:E; [|discriminate].
  intros ->. exists os. destruct a, b; try discriminate; reflexivity.
Qed.

(** The bare [--] names no action. *)
Lemma separator_names_nothing (t : option_tuple) :
  parse_optional (py "--") <> IsOptional t.
Proof. vm_compute. discriminate. Qed.

Lemma named_not_separator (s : pystr) (t : option_tuple) :
  parse_optional s = IsOptional t -> str_eqb s (py "--") = false.
Proof.
  intros H. apply str_eqb_neq. intros ->. exact (separator_names_nothing t H).
Qed.

(** An option that is handed a value which its action refuses is rejected;
    so is the option when no value follows it. *)
Lemma given_value_rejected (a : action) (token : pystr) (strict : bool)
  (pre given post : list pystr) :
  takes_argument a = true ->
  (token <> py "--" ->
   forall st, exists err, take_action a [token] st = Exit (UsageError err)) ->
  gives a token given ->
  (strict = true -> no_help pre) ->
  verdict strict (Argparse.parse_args (pre ++ given ++ post)).
Proof.
  intros Ha Hbad Hgiven Hhelp.
  destruct (in_dash_dec pre) as [Hin|Hno].
  { destruct (first_occurrence _ _ Hin) as (p1 & p2 & -> & Hno).
    rewrite <- app_assoc. rewrite <- app_comm_cons.
    apply separator_rejected; [exact Hno|].
    intros Hs s Hs'. apply (Hhelp Hs). apply in_or_app. left. exact Hs'. }
  rewrite parse_args_unfold, (pattern_app pre _ Hno).
  destruct (arg_strings_pattern pre) as [ip|x] eqn:Hp; simpl bind.
  2: { destruct (pattern_exit _ _ Hp) as [err ->]. apply verdict_usage. }
  assert (Hall : Forall (item_allows (allowed strict)) ip).
  { apply (items_allow _ pre ip Hp). apply no_help_allowed. exact Hhelp. }
  destruct Hgiven as [flag Hflag|s Hs Hne].
  - destruct (is_flag_tuple _ _ Hflag) as [os Hopt].
    cbn [app arg_strings_pattern].
    rewrite (named_not_separator _ _ Hopt), Hopt.
    destruct (str_eqb token (py "--")) eqn:Htok.
    + simpl bind. apply consume_prefix_verdict; [exact I| |exact Hall].
      intros st'. cbn [consume ot_action ot_explicit_arg]. rewrite Ha.
      apply verdict_usage.
    + apply str_eqb_neq in Htok.
      destruct (parse_optional token) as [|t'|matches].
      * destruct (arg_strings_pattern post) as [ir|x] eqn:Hpost; simpl bind.
        2: { destruct (pattern_exit _ _ Hpost) as [err ->]. apply verdict_usage. }
        apply consume_prefix_verdict; [exact I| |exact Hall].
        intros st'. cbn [consume ot_action ot_explicit_arg app take_actions].
        rewrite Ha. destruct (Hbad Htok st') as [err ->]. apply verdict_usage.
      * destruct (arg_strings_pattern post) as [ir|x] eqn:Hpost; simpl bind.
        2: { destruct (pattern_exit _ _ Hpost) as [err ->]. apply verdict_usage. }
        apply consume_prefix_verdict; [exact I| |exact Hall].
        intros st'. cbn [consume ot_action ot_explicit_arg]. rewrite Ha.
        apply verdict_usage.
      * simpl bind. apply verdict_usage.
  - destruct (attached_value_tuple _ _ _ Hs) as [os Hopt].
    cbn [app arg_strings_pattern].
    rewrite (named_not_separator _ _ Hopt), Hopt.
    destruct (arg_strings_pattern post) as [ir|x] eqn:Hpost; simpl bind.
    2: { destruct (pattern_exit _ _ Hpost) as [err ->]. apply verdict_usage. }
    apply consume_prefix_verdict; [exact I| |exact Hall].
    intros st'. cbn [consume ot_action ot_explicit_arg ot_option_string].
    rewrite (explicit_loop_store a os token Ha). cbn [take_actions].
    destruct (Hbad Hne st') as [err ->]. apply verdict_usage.
Qed.

(** Without [--audio] among the argument strings, parsing is rejected. *)
Lemma missing_audio_rejected (strict : bool) (argv : list pystr) :
  (forall s, In s argv -> named_action s <> Some Audio) ->
  (strict = true -> no_help argv) ->
  verdict strict (Argparse.parse_args argv).
Proof.
  intros Haudio Hhelp. rewrite parse_args_unfold.
  destruct (arg_strings_pattern argv) as [items|x] eqn:Hp.
  2: { destruct (pattern_exit _ _ Hp) as [err ->]. apply verdict_usage. }
  rewrite <- (app_nil_r items).
  apply (consume_prefix (fun a => a <> Audio /\ allowed strict a)
           (fun st => existsb (action_eqb Audio) (seen_actions st) = false)
           (fun r => verdict strict (after_loop r)) []).
  - intros err. apply verdict_usage.
  - intros [_ H]. apply verdict_help_allowed. exact H.
  - intros s st H. exact H.
  - intros a args st st' [Hne _] Hst Htake.
    destruct (takes_argument a) eqn:Ha.
    + destruct (take_action_store a args st Ha) as [(st'' & E & Hseen & _)|[err E]];
        rewrite E in Htake; [|discriminate].
      injection Htake as <-. rewrite Hseen. simpl. rewrite Hst.
      destruct a; try reflexivity. exfalso. apply Hne. reflexivity.
    + destruct a; try discriminate.
      destruct (take_action_help args st) as [x E]. rewrite E in Htake. discriminate.
  - exact I.
  - intros st Hst. cbn [consume].
    destruct (after_loop_required st Hst) as [err ->]. apply verdict_usage.
  - apply (items_allow _ argv items Hp). intros s a Hin Ha. split.
    + intros ->. exact (Haudio s Hin Ha).
    + exact (no_help_allowed strict argv Hhelp s a Hin Ha).
  - reflexivity.
Qed.

(** What a verdict means for the run. *)
Lemma verdict_run (e : env) (argv : list pystr) :
  verdict false (Argparse.parse_args argv) ->
  (exists x, Argparse.parse_args argv = Exit x)
  /\ library_calls (run e argv) = [].
Proof.
  intros (x & H & _). split; [eauto|].
  destruct x as [err|].
  - rewrite (run_usage_error e argv err H). reflexivity.
  - rewrite (run_help e argv H). reflexivity.
Qed.

Lemma verdict_run_strict (e : env) (argv : list pystr) :
  verdict true (Argparse.parse_args argv) ->
  exists err,
    Argparse.parse_args argv = Exit (UsageError err)
    /\ run e argv = {| exit_status := 2;
                       standard_output := [];
                       standard_error := format_usage_error e err;
                       library_calls := [] |}.
Proof.
  intros (x & H & Hx). destruct (Hx eq_refl) as [err ->].
  exists err. split; [exact H|]. apply run_usage_error. exact H.
Qed.

(** *** Values that an action refuses *)

Lemma vad_filter_refuses (token : pystr) (st : state) :
  token <> py "true" -> token <> py "false" -> token <> py "--" ->
  exists err, take_action VadFilter [token] st = Exit (UsageError err).
Proof.
  intros Ht Hf Hd. unfold take_action, get_values.
  cbn [remove_first takes_argument].
  apply str_eqb_neq in Ht, Hf, Hd. rewrite Hd.
  cbn [get_value bind check_value eq_str]. rewrite Ht, Hf. simpl. eauto.
Qed.

Lemma beam_size_refuses (token : pystr) (st : state) :
  int token = None -> token <> py "--" ->
  exists err, take_action BeamSize [token] st = Exit (UsageError err).
Proof.
  intros Hint Hd. unfold take_action, get_values.
  cbn [remove_first takes_argument].
  apply str_eqb_neq in Hd. rewrite Hd.
  cbn [get_value bind]. rewrite Hint. simpl. eauto.
Qed.

(** *** The [--vad-filter] choices *)

(** C4, as stated, fails: after [-h], the string [maybe] given to
    [--vad-filter] does not lead to a usage error; the help action runs
    first and the process ends with status 0. *)
Lemma vad_filter_after_help_counterexample :
  gives VadFilter (py "maybe") [py "--vad-filter"; py "maybe"]
  /\ Argparse.parse_args ([py "-h"] ++ [py "--vad-filter"; py "maybe"] ++ [])
       = Exit HelpExit
  /\ ~ (exists err,
          Argparse.parse_args ([py "-h"] ++ [py "--vad-filter"; py "maybe"] ++ [])
            = Exit (UsageError err))
  /\ exit_status (run sample_env ([py "-h"] ++ [py "--vad-filter"; py "maybe"] ++ []))
       = 0%Z.
Proof.
  split; [apply GivesNext; reflexivity|].
  split; [vm_compute; reflexivity|].
  split; [intros [err H]; vm_compute in H; discriminate|].
  vm_compute. reflexivity.
Qed.

(** The attached token [--] is not refused: [_get_values] removes it and
    the option is left with the empty list, which is not checked against
    the choices; the script then runs with the filter off. *)
Remark vad_filter_attached_separator :
  Argparse.parse_args (audio_only ++ [py "--vad-filter=--"])
    = Done (setattr audio_only_args VadFilter (PyList []))
  /\ library_calls (run sample_env (audio_only ++ [py "--vad-filter=--"]))
       = [ CallImport;
           CallWhisperModel (PyStr (py "small")) (PyStr (py "auto")) (PyStr (py "int8"));
           CallTranscribe (PyStr (py "a.wav")) 1 PyNone false ].
Proof. split; vm_compute; reflexivity. Qed.

(** C4, amended: when [--vad-filter], in full or abbreviated, is given a
    token other than [true] and [false], as the next argument string or
    attached with [=] (the attached bare [--] apart), [parse_args] does not
    return: the process ends before anything of the library is called.  It
    ends with a usage error and status 2 when no argument string before the
    option names the help action; otherwise the help action may end it
    first, with status 0. *)
Theorem vad_filter_choices_enforced
  (e : env) (pre given post : list pystr) (token : pystr) :
  gives VadFilter token given ->
  token <> py "true" ->
  token <> py "false" ->
  (exists x, Argparse.parse_args (pre ++ given ++ post) = Exit x)
  /\ library_calls (run e (pre ++ given ++ post)) = []
  /\ (no_help pre ->
      exists err,
        Argparse.parse_args (pre ++ given ++ post) = Exit (UsageError err)
        /\ run e (pre ++ given ++ post)
             = {| exit_status := 2;
                  standard_output := [];
                  standard_error := format_usage_error e err;
                  library_calls := [] |}).
Proof.
  intros Hgiven Ht Hf.
  assert (H : forall strict, (strict = true -> no_help pre) ->
                verdict strict (Argparse.parse_args (pre ++ given ++ post))).
  { intros strict Hs. apply (given_value_rejected VadFilter token); auto.
    intros Hd st. apply vad_filter_refuses; assumption. }
  split; [|split].
  - apply (verdict_run e). apply H. discriminate.
  - apply (verdict_run e). apply H. discriminate.
  - intros Hno. apply verdict_run_strict. apply H. intros _. exact Hno.
Qed.

Lemma vad_filter_choices_enforced_witness :
  gives VadFilter (py "maybe") [py "--vad-filter"; py "maybe"]
  /\ py "maybe" <> py "true"
  /\ py "maybe" <> py "false"
  /\ no_help audio_only
  /\ library_calls (run sample_env (audio_only ++ [py "--vad-filter"; py "maybe"] ++ []))
       = []
  /\ exit_status (run sample_env (audio_only ++ [py "--vad-filter"; py "maybe"] ++ []))
       = 2%Z.
Proof.
  assert (G : gives VadFilter (py "maybe") [py "--vad-filter"; py "maybe"])
    by (apply GivesNext; reflexivity).
  assert (T : py "maybe" <> py "true") by (vm_compute; discriminate).
  assert (F : py "maybe" <> py "false") by (vm_compute; discriminate).
  assert (NH : no_help audio_only)
    by (intros s [<-|[<-|[]]]; vm_compute; discriminate).
  destruct (vad_filter_choices_enforced sample_env audio_only
              [py "--vad-filter"; py "maybe"] [] (py "maybe") G T F)
    as (_ & Hcalls & Husage).
  split; [exact G|]. split; [exact T|]. split; [exact F|]. split; [exact NH|].
  split; [exact Hcalls|].
  destruct (Husage NH) as (err & _ & ->). reflexivity.
Defined.

(** *** The required [--audio] *)

(** C7, as stated, fails: [-h] alone omits [--audio], and the process ends
    with the help and status 0, not with a usage error. *)
Lemma help_without_audio_counterexample :
  (forall s, In s [py "-h"] -> named_action s <> Some Audio)
  /\ Argparse.parse_args [py "-h"] = Exit HelpExit
  /\ ~ (exists err, Argparse.parse_args [py "-h"] = Exit (UsageError err))
  /\ exit_status (run sample_env [py "-h"]) = 0%Z.
Proof.
  split; [intros s [<-|[]]; vm_compute; discriminate|].
  split; [vm_compute; reflexivity|].
  split; [intros [err H]; vm_compute in H; discriminate|].
  vm_compute. reflexivity.
Qed.

(** C7, amended: when no argument string names [--audio], [parse_args]
    does not return: the process ends during argument parsing, before the
    import and before anything of the library is called.  It ends with a
    usage error and status 2 when no argument string names the help action;
    otherwise the help action may end it first, with status 0. *)
Theorem audio_is_required (e : env) (argv : list pystr) :
  (forall s, In s argv -> named_action s <> Some Audio) ->
  (exists x, Argparse.parse_args argv = Exit x)
  /\ library_calls (run e argv) = []
  /\ (no_help argv ->
      exists err,
        Argparse.parse_args argv = Exit (UsageError err)
        /\ run e argv = {| exit_status := 2;
                           standard_output := [];
                           standard_error := format_usage_error e err;
                           library_calls := [] |}).
Proof.
  intros Haudio.
  assert (H : forall strict, (strict = true -> no_help argv) ->
                verdict strict (Argparse.parse_args argv)).
  { intros strict Hs. apply missing_audio_rejected; assumption. }
  split; [|split].
  - apply (verdict_run e). apply H. discriminate.
  - apply (verdict_run e). apply H. discriminate.
  - intros Hno. apply verdict_run_strict. apply H. intros _. exact Hno.
Qed.

Lemma audio_is_required_witness :
  (forall s, In s [py "--model"; py "tiny"] -> named_action s <> Some Audio)
  /\ no_help [py "--model"; py "tiny"]
  /\ library_calls (run sample_env [py "--model"; py "tiny"]) = []
  /\ exit_status (run sample_env [py "--model"; py "tiny"]) = 2%Z.
Proof.
  assert (H : forall s, In s [py "--model"; py "tiny"] -> named_action s <> Some Audio)
    by (intros s [<-|[<-|[]]]; vm_compute; discriminate).
  assert (NH : no_help [py "--model"; py "tiny"])
    by (intros s [<-|[<-|[]]]; vm_compute; discriminate).
  destruct (audio_is_required sample_env [py "--model"; py "tiny"] H)
    as (_ & Hcalls & Husage).
  split; [exact H|]. split; [exact NH|]. split; [exact Hcalls|].
  destruct (Husage NH) as (err & _ & ->). reflexivity.
Defined.

(** *** The type of [--beam-size] *)

(** C10, as stated, fails: after [-h], the string [wide] given to
    [--beam-size] does not lead to a usage error; the help action runs
    first and the process ends with status 0. *)
Lemma beam_size_after_help_counterexample :
  gives BeamSize (py "wide") [py "--beam-size"; py "wide"]
  /\ int (py "wide") = None
  /\ Argparse.parse_args ([py "-h"] ++ [py "--beam-size"; py "wide"] ++ [])
       = Exit HelpExit
  /\ ~ (exists err,
          Argparse.parse_args ([py "-h"] ++ [py "--beam-size"; py "wide"] ++ [])
            = Exit (UsageError err))
  /\ exit_status (run sample_env ([py "-h"] ++ [py "--beam-size"; py "wide"] ++ []))
       = 0%Z.
Proof.
  split; [apply GivesNext; reflexivity|].
  split; [vm_compute; reflexivity|].
  split; [vm_compute; reflexivity|].
  split; [intros [err H]; vm_compute in H; discriminate|].
  vm_compute. reflexivity.
Qed.

(** The attached token [--] is not refused either: the beam size becomes
    the empty list, the model is constructed, and [max(1, [])] raises the
    [TypeError] that the second [try] reports. *)
Remark beam_size_attached_separator :
  Argparse.parse_args (audio_only ++ [py "--beam-size=--"])
    = Done (setattr audio_only_args BeamSize (PyList []))
  /\ run sample_env (audio_only ++ [py "--beam-size=--"])
     = {| exit_status := 1;
          standard_output := [];
          standard_error :=
            py "transcribe failed: '>' not supported between instances of 'list' and 'int'"
            ++ newline;
          library_calls :=
            [ CallImport;
              CallWhisperModel (PyStr (py "small")) (PyStr (py "auto"))
                               (PyStr (py "int8")) ] |}.
Proof. split; vm_compute; reflexivity. Qed.

(** C10, amended: when [--beam-size], in full or abbreviated, is given a
    token that [int] does not accept, as the next argument string or
    attached with [=] (the attached bare [--] apart), [parse_args] does not
    return: the process ends before the import and before anything of the
    library is called.  It ends with a usage error and status 2 when no
    argument string before the option names the help action; otherwise the
    help action may end it first, with status 0. *)
Theorem beam_size_must_be_an_integer
  (e : env) (pre given post : list pystr) (token : pystr) :
  gives BeamSize token given ->
  int token = None ->
  (exists x, Argparse.parse_args (pre ++ given ++ post) = Exit x)
  /\ library_calls (run e (pre ++ given ++ post)) = []
  /\ (no_help pre ->
      exists err,
        Argparse.parse_args (pre ++ given ++ post) = Exit (UsageError err)
        /\ run e (pre ++ given ++ post)
             = {| exit_status := 2;
                  standard_output := [];
                  standard_error := format_usage_error e err;
                  library_calls := [] |}).
Proof.
  intros Hgiven Hint.
  assert (H : forall strict, (strict = true -> no_help pre) ->
                verdict strict (Argparse.parse_args (pre ++ given ++ post))).
  { intros strict Hs. apply (given_value_rejected BeamSize token); auto.
    intros Hd st. apply beam_size_refuses; assumption. }
  split; [|split].
  - apply (verdict_run e). apply H. discriminate.
  - apply (verdict_run e). apply H. discriminate.
  - intros Hno. apply verdict_run_strict. apply H. intros _. exact Hno.
Qed.

Lemma beam_size_must_be_an_integer_witness :
  gives BeamSize (py "wide") [py "--beam-size=wide"]
  /\ int (py "wide") = None
  /\ no_help audio_only
  /\ library_calls (run sample_env (audio_only ++ [py "--beam-size=wide"] ++ [])) = []
  /\ exit_status (run sample_env (audio_only ++ [py "--beam-size=wide"] ++ [])) = 2%Z.
Proof.
  assert (G : gives BeamSize (py "wide") [py "--beam-size=wide"])
    by (apply GivesAttached; [reflexivity|vm_compute; discriminate]).
  assert (N : int (py "wide") = None) by reflexivity.
  assert (NH : no_help audio_only)
    by (intros s [<-|[<-|[]]]; vm_compute; discriminate).
  destruct (beam_size_must_be_an_integer sample_env audio_only
              [py "--beam-size=wide"] [] (py "wide") G N)
    as (_ & Hcalls & Husage).
  split; [exact G|]. split; [exact N|]. split; [exact NH|]. split; [exact Hcalls|].
  destruct (Husage NH) as (err & _ & ->). reflexivity.
Defined.

(** *** Beam size *)

(** The loop over a prefix, then over the rest, when the rest does not
    start with an argument that the prefix could take. *)
Lemma consume_app (X : list (pystr * pattern)) :
  head_not_argument X ->
  forall ipre st, consume (ipre ++ X) st = bind (consume ipre st) (consume X).
Proof.
  intros Hhead ipre.
  remember (List.length ipre) as n eqn:Hn. revert ipre Hn.
  induction n as [n IH] using lt_wf_ind. intros ipre Hn st. subst n.
  destruct ipre as [|[s p] rest]; [reflexivity|].
  simpl in IH. rewrite <- app_comm_cons.
  destruct p as [|t|].
  - cbn [consume]. apply (IH (List.length rest)); auto.
  - cbn [consume]. destruct (ot_action t) as [a|].
    2: { apply (IH (List.length rest)); auto. }
    destruct (match ot_explicit_arg t with
              | Some explicit_arg => explicit_loop a (ot_option_string t) explicit_arg
              | None => inr ([], Some a)
              end) as [err|[tuples [a'|]]]; [reflexivity| |].
    + destruct (takes_argument a').
      * destruct rest as [|[arg p'] rest'].
        -- simpl app. destruct X as [|[s' [|t'|]] X']; simpl in Hhead;
             try contradiction; reflexivity.
        -- rewrite <- app_comm_cons. destruct p'; try reflexivity.
           destruct (take_actions (tuples ++ [(a', [arg])]) st); simpl; [|reflexivity].
           apply (IH (List.length rest')); simpl; auto.
      * destruct (take_actions (tuples ++ [(a', [])]) st); simpl; [|reflexivity].
        apply (IH (List.length rest)); auto.
    + destruct (take_actions tuples st); simpl; [|reflexivity].
      apply (IH (List.length rest)); auto.
  - cbn [consume]. apply (IH (List.length rest)); auto.
Qed.

Lemma clamp_eq_refl (v : pyval) : clamp_eq v v.
Proof. left. reflexivity. Qed.

Lemma related_add_extra (s : pystr) (st st1 : state) :
  related st st1 -> related (add_extra s st) (add_extra s st1).
Proof.
  intros (Hns & Hseen & Hextras). unfold related, add_extra. simpl.
  split; [exact Hns|]. split; [exact Hseen|]. rewrite Hextras. reflexivity.
Qed.

Lemma take_action_related (a : action) (args : list pystr) (st st1 : state) :
  related st st1 ->
  same_outcome related (take_action a args st) (take_action a args st1).
Proof.
  intros ((Ha & Hm & Hd & Hc & Hl & Hv & Hb) & Hseen & Hextras).
  unfold take_action. destruct (get_values a args) as [v|x]; simpl; [|reflexivity].
  destruct a; simpl; try reflexivity;
    unfold related, same_but_beam; simpl;
    repeat split; auto using clamp_eq_refl; congruence.
Qed.

Lemma take_actions_related (l : list (action * list pystr)) (st st1 : state) :
  related st st1 ->
  same_outcome related (take_actions l st) (take_actions l st1).
Proof.
  revert st st1. induction l as [|[a args] l IH]; intros st st1 H; simpl.
  - exact H.
  - pose proof (take_action_related a args st st1 H) as Ht.
    destruct (take_action a args st), (take_action a args st1); simpl in *;
      try contradiction; auto.
Qed.

(** The loop takes related states to related outcomes. *)
Lemma consume_related (items : list (pystr * pattern)) :
  forall st st1, related st st1 ->
  same_outcome related (consume items st) (consume items st1).
Proof.
  remember (List.length items) as n eqn:Hn. revert items Hn.
  induction n as [n IH] using lt_wf_ind. intros items Hn st st1 H. subst n.
  destruct items as [|[s p] rest]; [exact H|].
  simpl in IH.
  assert (Hextra : same_outcome related (consume rest (add_extra s st))
                                       (consume rest (add_extra s st1))).
  { apply (IH (List.length rest)); auto using related_add_extra. }
  destruct p as [|t|]; cbn [consume]; try exact Hextra.
  destruct (ot_action t) as [a|]; [|exact Hextra].
  destruct (match ot_explicit_arg t with
            | Some explicit_arg => explicit_loop a (ot_option_string t) explicit_arg
            | None => inr ([], Some a)
            end) as [err|[tuples [a'|]]]; [reflexivity| |].
  - destruct (takes_argument a').
    + destruct rest as [|[arg [|t'|]] rest']; try reflexivity.
      pose proof (take_actions_related (tuples ++ [(a', [arg])]) st st1 H) as Ht.
      destruct (take_actions (tuples ++ [(a', [arg])]) st),
               (take_actions (tuples ++ [(a', [arg])]) st1); simpl in *;
        try contradiction; auto.
      apply (IH (List.length rest')); simpl; auto.
    + pose proof (take_actions_related (tuples ++ [(a', [])]) st st1 H) as Ht.
      destruct (take_actions (tuples ++ [(a', [])]) st),
               (take_actions (tuples ++ [(a', [])]) st1); simpl in *;
        try contradiction; auto.
      apply (IH (List.length rest)); auto.
  - pose proof (take_actions_related tuples st st1 H) as Ht.
    destruct (take_actions tuples st), (take_actions tuples st1); simpl in *;
      try contradiction; auto.
    apply (IH (List.length rest)); auto.
Qed.

Lemma after_loop_related (r r1 : parse state) :
  same_outcome related r r1 ->
  same_outcome same_but_beam (after_loop r) (after_loop r1).
Proof.
  destruct r as [st|x], r1 as [st1|x1]; simpl; try contradiction.
  - intros (Hns & Hseen & Hextras). unfold after_loop. simpl.
    rewrite Hseen, Hextras.
    destruct (existsb (action_eqb Audio) (seen_actions st1)); simpl; [|reflexivity].
    destruct (extras st1); simpl; [exact Hns|reflexivity].
  - intros ->. reflexivity.
Qed.

(** The script does not tell such namespaces apart. *)
Lemma run_same_but_beam (e : env) (ns ns1 : Namespace) :
  same_but_beam ns ns1 -> run_after_parse e ns = run_after_parse e ns1.
Proof.
  intros (Ha & Hm & Hd & Hc & Hl & Hv & Hb).
  unfold run_after_parse, main_after_parse, transcribe_and_print.
  rewrite Ha, Hm, Hd, Hc, Hl, Hv.
  destruct Hb as [->|(z & z1 & -> & -> & Hz)]; [reflexivity|].
  unfold max_1. rewrite Hz. reflexivity.
Qed.

Lemma run_same_outcome (e : env) (argv argv1 : list pystr) :
  same_outcome same_but_beam (Argparse.parse_args argv) (Argparse.parse_args argv1) ->
  run e argv = run e argv1.
Proof.
  intros H.
  destruct (Argparse.parse_args argv) as [ns|x] eqn:E,
           (Argparse.parse_args argv1) as [ns1|x1] eqn:E1;
    simpl in H; try contradiction.
  - rewrite (run_parsed e argv ns E), (run_parsed e argv1 ns1 E1).
    apply run_same_but_beam. exact H.
  - subst x1. unfold run, main, Script.parse_args. rewrite E, E1. reflexivity.
Qed.

(** The items of a passed value, and what the loop does with them. *)
Lemma passes_items (a : action) (token : pystr) (given : list pystr) :
  takes_argument a = true ->
  passes a token given ->
  token <> py "--"
  /\ exists G,
       (forall post,
          arg_strings_pattern (given ++ post)
            = bind (arg_strings_pattern post) (fun l => Done (G ++ l)))
       /\ (forall l, head_not_argument (G ++ l))
       /\ (forall l st,
             consume (G ++ l) st = bind (take_action a [token] st) (consume l)).
Proof.
  intros Ha [flag Hflag Hnot|s Hs Hne].
  - assert (Htok : token <> py "--").
    { intros ->. vm_compute in Hnot. discriminate. }
    split; [exact Htok|].
    destruct (is_flag_tuple _ _ Hflag) as [os Hopt].
    exists [(flag, O (OptionTuple (Some a) os None)); (token, A)].
    split; [|split].
    + intros post. cbn [app arg_strings_pattern].
      rewrite (named_not_separator _ _ Hopt), Hopt.
      apply str_eqb_neq in Htok. rewrite Htok, Hnot.
      destruct (arg_strings_pattern post); reflexivity.
    + intros l. exact I.
    + intros l st. cbn [app consume ot_action ot_explicit_arg take_actions].
      rewrite Ha. cbn [app take_actions].
      destruct (take_action a [token] st); reflexivity.
  - split; [exact Hne|].
    destruct (attached_value_tuple _ _ _ Hs) as [os Hopt].
    exists [(s, O (OptionTuple (Some a) os (Some token)))].
    split; [|split].
    + intros post. cbn [app arg_strings_pattern].
      rewrite (named_not_separator _ _ Hopt), Hopt.
      destruct (arg_strings_pattern post); reflexivity.
    + intros l. exact I.
    + intros l st. cbn [app consume ot_action ot_explicit_arg ot_option_string].
      rewrite (explicit_loop_store a os token Ha). cbn [take_actions].
      destruct (take_action a [token] st); reflexivity.
Qed.

(** An integer token is stored as the beam size. *)
Lemma take_action_beam_size (token : pystr) (z : Z) (st : state) :
  token <> py "--" ->
  int token = Some z ->
  take_action BeamSize [token] st
    = Done {| namespace := setattr (namespace st) BeamSize (PyInt z);
              seen_actions := BeamSize :: seen_actions st;
              extras := extras st |}.
Proof.
  intros Hd Hint. unfold take_action, get_values.
  cbn [remove_first takes_argument].
  apply str_eqb_neq in Hd. rewrite Hd.
  cbn [get_value bind]. rewrite Hint. reflexivity.
Qed.

(** C3: an invocation that passes [--beam-size] an integer below 1 runs
    exactly as the invocation that passes 1 in its place: same exit status,
    same output on both streams, same calls to the library; the same holds
    of any two namespaces that differ in such a beam size only; and in
    every run the beam width handed to [transcribe] is at least 1. *)
Theorem beam_size_below_one_runs_as_one
  (e : env) (pre given given1 post : list pystr) (token : pystr) (z : Z) :
  ~ In (py "--") pre ->
  passes BeamSize token given ->
  passes BeamSize (py "1") given1 ->
  int token = Some z ->
  (z < 1)%Z ->
  run e (pre ++ given ++ post) = run e (pre ++ given1 ++ post)
  /\ (forall args,
        run_after_parse e (setattr args BeamSize (PyInt z))
          = run_after_parse e (setattr args BeamSize (PyInt 1)))
  /\ (forall argv, Forall beam_at_least_one (library_calls (run e argv))).
Proof.
  intros Hno Hgiven Hgiven1 Hint Hz.
  assert (Hclamp : clamp_eq (PyInt z) (PyInt 1)).
  { right. exists z, 1%Z. repeat split. lia. }
  split; [|split].
  - apply run_same_outcome.
    rewrite !parse_args_unfold, !(pattern_app pre _ Hno).
    destruct (arg_strings_pattern pre) as [ip|x]; simpl bind; [|reflexivity].
    destruct (passes_items BeamSize token given eq_refl Hgiven)
      as (Htok & G & HG & Hhead & Hloop).
    destruct (passes_items BeamSize (py "1") given1 eq_refl Hgiven1)
      as (Htok1 & G1 & HG1 & Hhead1 & Hloop1).
    rewrite HG, HG1.
    destruct (arg_strings_pattern post) as [l|x]; simpl bind; [|reflexivity].
    apply after_loop_related.
    rewrite (consume_app (G ++ l) (Hhead l)), (consume_app (G1 ++ l) (Hhead1 l)).
    destruct (consume ip initial_state) as [st|x]; simpl bind; [|reflexivity].
    rewrite Hloop, Hloop1.
    rewrite (take_action_beam_size token z st Htok Hint).
    rewrite (take_action_beam_size (py "1") 1 st Htok1 eq_refl).
    simpl bind. apply consume_related.
    unfold related, same_but_beam. simpl. auto 10.
  - intros args. apply run_same_but_beam.
    unfold same_but_beam. simpl. auto 10.
  - apply run_beam.
Qed.

Lemma beam_size_below_one_runs_as_one_witness :
  ~ In (py "--") audio_only
  /\ passes BeamSize (py "-3") [py "--beam-size"; py "-3"]
  /\ passes BeamSize (py "1") [py "--beam-size=1"]
  /\ int (py "-3") = Some (-3)%Z
  /\ (-3 < 1)%Z
  /\ run beam_reporting_env (audio_only ++ [py "--beam-size"; py "-3"] ++ [])
     = run beam_reporting_env (audio_only ++ [py "--beam-size=1"] ++ []).
Proof.
  assert (H0 : ~ In (py "--") audio_only)
    by (intros [H|[H|[]]]; vm_compute in H; discriminate).
  assert (H1 : passes BeamSize (py "-3") [py "--beam-size"; py "-3"])
    by (apply PassesNext; reflexivity).
  assert (H2 : passes BeamSize (py "1") [py "--beam-size=1"])
    by (apply PassesAttached; [reflexivity|vm_compute; discriminate]).
  assert (H3 : int (py "-3") = Some (-3)%Z) by reflexivity.
  assert (H4 : (-3 < 1)%Z) by reflexivity.
  split; [exact H0|]. split; [exact H1|]. split; [exact H2|].
  split; [exact H3|]. split; [exact H4|].
  exact (proj1 (beam_size_below_one_runs_as_one beam_reporting_env audio_only
                  [py "--beam-size"; py "-3"] [py "--beam-size=1"] [] (py "-3") (-3)
                  H0 H1 H2 H3 H4)).
Defined.

(** With the default beam size out of the way, the beam width reaches the
    library unchanged: [--beam-size 5] is not the same run. *)
Remark beam_size_above_one_differs :
  run beam_reporting_env (audio_only ++ [py "--beam-size"; py "5"])
    <> run beam_reporting_env (audio_only ++ [py "--beam-size"; py "1"])
  /\ library_calls (run beam_reporting_env (audio_only ++ [py "--beam-size"; py "0"]))
       = [ CallImport;
           CallWhisperModel (PyStr (py "small")) (PyStr (py "auto")) (PyStr (py "int8"));
           CallTranscribe (PyStr (py "a.wav")) 1 PyNone true ].
Proof.
  split.
  - vm_compute. discriminate.
  - vm_compute. reflexivity.
Qed.


(** ** Further properties of [parse_args] and [main] *)

Import Coverage.

(** *** Invariants of the main loop *)

(** What a store action does to the state. *)
Lemma take_action_done (a : action) (args : list pystr) (st st' : state) :
  take_action a args st = Done st' ->
  takes_argument a = true
  /\ exists v,
       get_values a args = Done v
       /\ st' = {| namespace := setattr (namespace st) a v;
                   seen_actions := a :: seen_actions st;
                   extras := extras st |}.
Proof.
  unfold take_action. destruct (get_values a args) as [v|x]; simpl; [|discriminate].
  destruct a; try discriminate; intros H; injection H as <-;
    (split; [reflexivity|]); exists v; split; reflexivity.
Qed.

(** A property of the state that the stores of the named actions and the
    extras keep is kept by the main loop. *)
Lemma consume_keeps (ok : action -> Prop) (I : state -> Prop) :
  (forall s st, I st -> I (add_extra s st)) ->
  (forall a v st st',
     ok a -> takes_argument a = true -> I st ->
     take_action a [v] st = Done st' -> I st') ->
  forall items st st',
    Forall (item_allows ok) items -> I st -> consume items st = Done st' -> I st'.
Proof.
  intros Hextra Htake items.
  remember (List.length items) as n eqn:Hn. revert items Hn.
  induction n as [n IH] using lt_wf_ind. intros items Hn st st' Hall Hst Hdone.
  subst n. destruct items as [|[s p] rest].
  - simpl in Hdone. injection Hdone as <-. exact Hst.
  - inversion Hall as [|? ? Hit Hrest]; subst. simpl in IH.
    destruct p as [|t|]; cbn [consume] in Hdone.
    + apply (IH (List.length rest) (Nat.lt_succ_diag_r _) rest eq_refl
               (add_extra s st) st'); auto.
    + destruct t as [[a|] os oe]; cbn [ot_action ot_explicit_arg ot_option_string] in Hdone.
      * unfold item_allows in Hit. simpl in Hit.
        destruct (takes_argument a) eqn:Ha.
        -- destruct oe as [e|].
           ++ rewrite (explicit_loop_store a os e Ha) in Hdone.
              cbn [take_actions] in Hdone.
              destruct (take_action a [e] st) as [st1|x] eqn:E; simpl in Hdone;
                [|discriminate].
              apply (IH (List.length rest) (Nat.lt_succ_diag_r _) rest eq_refl st1 st');
                auto.
              eapply Htake; eauto.
           ++ rewrite Ha in Hdone.
              destruct rest as [|[arg [|t'|]] rest']; try discriminate.
              cbn [app take_actions] in Hdone.
              destruct (take_action a [arg] st) as [st1|x] eqn:E; simpl in Hdone;
                [|discriminate].
              inversion Hrest; subst.
              apply (IH (List.length rest')) with (items := rest') (st := st1);
                simpl; auto.
              eapply Htake; eauto.
        -- destruct a; try discriminate.
           destruct (consume_help s os oe rest st) as [x Hx].
           cbn [consume ot_action ot_explicit_arg ot_option_string] in Hx.
           rewrite Hx in Hdone. discriminate.
      * apply (IH (List.length rest) (Nat.lt_succ_diag_r _) rest eq_refl
                 (add_extra s st) st'); auto.
    + apply (IH (List.length rest) (Nat.lt_succ_diag_r _) rest eq_refl
               (add_extra s st) st'); auto.
Qed.

(** What a returning [parse_args] went through. *)
Lemma parse_args_done (argv : list pystr) (ns : Namespace) :
  Argparse.parse_args argv = Done ns ->
  exists items st,
    arg_strings_pattern argv = Done items
    /\ consume items initial_state = Done st
    /\ ns = namespace st
    /\ extras st = []
    /\ existsb (action_eqb Audio) (seen_actions st) = true.
Proof.
  rewrite parse_args_unfold.
  destruct (arg_strings_pattern argv) as [items|x]; [|discriminate].
  unfold after_loop.
  destruct (consume items initial_state) as [st|x] eqn:Hc; simpl; [|discriminate].
  destruct (existsb (action_eqb Audio) (seen_actions st)) eqn:Hseen; simpl;
    [|discriminate].
  destruct (extras st) eqn:Hextras; [|discriminate].
  intros H. injection H as <-. exists items, st. repeat split; auto.
Qed.

Lemma field_setattr_same (ns : Namespace) (a : action) (v : pyval) :
  takes_argument a = true -> field (setattr ns a v) a = v.
Proof. destruct a; try discriminate; reflexivity. Qed.

Lemma field_setattr_other (ns : Namespace) (a b : action) (v : pyval) :
  a <> b -> field (setattr ns a v) b = field ns b.
Proof. intros H. destruct a, b; try reflexivity; exfalso; apply H; reflexivity. Qed.

(** The value that one string gives a store action. *)
Lemma get_values_one (a : action) (s : pystr) (v : pyval) :
  takes_argument a = true ->
  get_values a [s] = Done v ->
  (s = py "--" /\ v = PyList [])
  \/ (s <> py "--" /\ get_value a s = Done v /\ check_value a v = Done tt).
Proof.
  intros Ha. unfold get_values. cbn [remove_first]. rewrite Ha.
  destruct (str_eqb s (py "--")) eqn:E.
  - apply str_eqb_eq in E. simpl. intros H. injection H as <-. left. auto.
  - apply str_eqb_neq in E. intros H. right. split; [exact E|].
    destruct (get_value a s) as [v'|x]; simpl in H; [|discriminate].
    destruct (check_value a v') as [[]|x] eqn:Hc; simpl in H; [|discriminate].
    injection H as <-. split; [reflexivity|exact Hc].
Qed.

Lemma get_values_stored (a : action) (s : pystr) (v : pyval) :
  takes_argument a = true -> get_values a [s] = Done v -> stored a v.
Proof.
  intros Ha H. destruct (get_values_one a s v Ha H) as [[_ ->]|(_ & Hg & Hc)].
  - destruct a; try discriminate; simpl; auto.
  - destruct a; try discriminate; simpl in *;
      try (injection Hg as <-; left; eexists; reflexivity).
    + destruct (int s); [|discriminate]. injection Hg as <-. left. eexists. reflexivity.
    + injection Hg as <-. simpl in Hc.
      destruct (str_eqb s (py "true")) eqn:Et.
      * apply str_eqb_eq in Et. subst. auto.
      * destruct (str_eqb s (py "false")) eqn:Ef; [|discriminate].
        apply str_eqb_eq in Ef. subst. auto.
Qed.

Lemma typed_initial : typed initial_state.
Proof. split; [intros a _; left; reflexivity|discriminate]. Qed.

Lemma typed_take_action (a : action) (v : pystr) (st st' : state) :
  typed st -> take_action a [v] st = Done st' -> typed st'.
Proof.
  intros [Hf Haudio] H. destruct (take_action_done _ _ _ _ H) as (Ha & val & Hv & ->).
  pose proof (get_values_stored a v val Ha Hv) as Hs.
  split; simpl.
  - intros b Hb. destruct (action_eqb a b) eqn:E.
    + assert (a = b) by (destruct a, b; try discriminate; reflexivity). subst b.
      right. rewrite field_setattr_same by exact Ha. exact Hs.
    + assert (a <> b) by (intros ->; destruct b; discriminate).
      rewrite field_setattr_other by assumption. apply Hf. exact Hb.
  - destruct a; try discriminate Ha; simpl; try exact Haudio.
    intros _. exact Hs.
Qed.

Lemma parsed_typed (argv : list pystr) (ns : Namespace) :
  Argparse.parse_args argv = Done ns ->
  exists st, ns = namespace st /\ typed st
             /\ existsb (action_eqb Audio) (seen_actions st) = true.
Proof.
  intros H. destruct (parse_args_done argv ns H) as (items & st & Hp & Hc & -> & _ & Hseen).
  exists st. split; [reflexivity|]. split; [|exact Hseen].
  apply (consume_keeps (fun _ => True) typed) with (items := items) (st := initial_state).
  - intros s st0 H0. exact H0.
  - intros a v st0 st1 _ _ H0 H1. exact (typed_take_action a v st0 st1 H0 H1).
  - apply Forall_forall. intros [s [|t|]] _; unfold item_allows; simpl; auto.
    destruct (ot_action t); exact I.
  - exact typed_initial.
  - exact Hc.
Qed.


(** *** The namespace that [parse_args] returns *)

(** X1: every attribute of a returned namespace has the type its option
    gives it: the path, model, device and compute type are strings, the
    language is a string or [None], the beam size is an integer, and the
    filter is ["true"] or ["false"]; the one other value is the empty
    list, which an attached bare [--] leaves. *)
Theorem parsed_namespace_is_typed (argv : list pystr) (ns : Namespace) :
  Argparse.parse_args argv = Done ns ->
  ((exists s, audio ns = PyStr s) \/ audio ns = PyList [])
  /\ ((exists s, model ns = PyStr s) \/ model ns = PyList [])
  /\ ((exists s, device ns = PyStr s) \/ device ns = PyList [])
  /\ ((exists s, compute_type ns = PyStr s) \/ compute_type ns = PyList [])
  /\ (language ns = PyNone \/ (exists s, language ns = PyStr s) \/ language ns = PyList [])
  /\ ((exists z, beam_size ns = PyInt z) \/ beam_size ns = PyList [])
  /\ (vad_filter ns = PyStr (py "true") \/ vad_filter ns = PyStr (py "false")
      \/ vad_filter ns = PyList []).
Proof.
  intros H. destruct (parsed_typed argv ns H) as (st & -> & [Hf Ha] & Hseen).
  split; [exact (Ha Hseen)|].
  pose proof (Hf Model eq_refl) as Hm. pose proof (Hf Device eq_refl) as Hd.
  pose proof (Hf ComputeType eq_refl) as Hc. pose proof (Hf Language eq_refl) as Hl.
  pose proof (Hf BeamSize eq_refl) as Hb. pose proof (Hf VadFilter eq_refl) as Hv.
  simpl in *.
  repeat split.
  - destruct Hm as [->|Hm]; [left; eexists; reflexivity|exact Hm].
  - destruct Hd as [->|Hd]; [left; eexists; reflexivity|exact Hd].
  - destruct Hc as [->|Hc]; [left; eexists; reflexivity|exact Hc].
  - destruct Hl as [->|[Hl|Hl]]; auto.
  - destruct Hb as [->|Hb]; [left; eexists; reflexivity|exact Hb].
  - destruct Hv as [->|Hv]; [left; reflexivity|exact Hv].
Qed.

Lemma parsed_namespace_is_typed_witness :
  Argparse.parse_args (audio_only ++ [py "--vad-filter"; py "false"])
    = Done (setattr audio_only_args VadFilter (PyStr (py "false")))
  /\ (vad_filter (setattr audio_only_args VadFilter (PyStr (py "false")))
        = PyStr (py "true")
      \/ vad_filter (setattr audio_only_args VadFilter (PyStr (py "false")))
           = PyStr (py "false")
      \/ vad_filter (setattr audio_only_args VadFilter (PyStr (py "false")))
           = PyList []).
Proof.
  assert (P : Argparse.parse_args (audio_only ++ [py "--vad-filter"; py "false"])
              = Done (setattr audio_only_args VadFilter (PyStr (py "false"))))
    by (vm_compute; reflexivity).
  split; [exact P|].
  exact (proj2 (proj2 (proj2 (proj2 (proj2 (proj2
           (parsed_namespace_is_typed _ _ P))))))).
Defined.

(** The items of strings that do not name [a] do not hold [a]. *)
Lemma items_do_not_name (a : action) (l : list pystr) (items : list (pystr * pattern)) :
  arg_strings_pattern l = Done items ->
  (forall s, In s l -> named_action s <> Some a) ->
  Forall (item_allows (fun b => b <> a)) items.
Proof.
  intros Hp Hno. apply (items_allow _ l items Hp).
  intros s b Hin Hb ->. exact (Hno s Hin Hb).
Qed.

(** The loop over items that do not hold [a] leaves the attribute of [a]. *)
Lemma consume_leaves_field (a : action) (items : list (pystr * pattern))
  (st st' : state) :
  Forall (item_allows (fun b => b <> a)) items ->
  consume items st = Done st' ->
  field (namespace st') a = field (namespace st) a.
Proof.
  intros Hall Hc.
  apply (consume_keeps (fun b => b <> a)
           (fun s => field (namespace s) a = field (namespace st) a))
    with (items := items) (st := st); auto.
  intros b v st0 st1 Hb _ H0 H1.
  destruct (take_action_done _ _ _ _ H1) as (_ & val & _ & ->). simpl.
  rewrite field_setattr_other by exact Hb. exact H0.
Qed.

(** X2: an option that no argument string names keeps its default: the
    model [small], the device [auto], the compute type [int8], no language,
    beam size 1, the filter [true]. *)
Theorem unnamed_option_keeps_default (argv : list pystr) (ns : Namespace) (a : action) :
  Argparse.parse_args argv = Done ns ->
  (forall s, In s argv -> named_action s <> Some a) ->
  field ns a = field defaults a.
Proof.
  intros H Hno.
  destruct (parse_args_done argv ns H) as (items & st & Hp & Hc & -> & _ & _).
  exact (consume_leaves_field a items initial_state st
           (items_do_not_name a argv items Hp Hno) Hc).
Qed.

Lemma unnamed_option_keeps_default_witness :
  Argparse.parse_args (audio_only ++ [py "--device=cpu"])
    = Done (setattr audio_only_args Device (PyStr (py "cpu")))
  /\ (forall s, In s (audio_only ++ [py "--device=cpu"]) ->
                named_action s <> Some Model)
  /\ field (setattr audio_only_args Device (PyStr (py "cpu"))) Model
     = PyStr (py "small").
Proof.
  assert (P : Argparse.parse_args (audio_only ++ [py "--device=cpu"])
              = Done (setattr audio_only_args Device (PyStr (py "cpu"))))
    by (vm_compute; reflexivity).
  assert (N : forall s, In s (audio_only ++ [py "--device=cpu"]) ->
                        named_action s <> Some Model)
    by (intros s [<-|[<-|[<-|[]]]]; vm_compute; discriminate).
  split; [exact P|]. split; [exact N|].
  exact (unnamed_option_keeps_default _ _ Model P N).
Defined.

(** X3: the last value passed to an option is the one the namespace holds,
    converted by [int] for the beam size and verbatim otherwise, whatever
    came before it. *)
Theorem last_value_is_stored
  (pre given post : list pystr) (a : action) (token : pystr) (ns : Namespace) :
  takes_argument a = true ->
  passes a token given ->
  (forall s, In s post -> named_action s <> Some a) ->
  Argparse.parse_args (pre ++ given ++ post) = Done ns ->
  get_value a token = Done (field ns a).
Proof.
  intros Ha Hgiven Hpost H.
  destruct (in_dash_dec pre) as [Hin|Hno].
  { exfalso. destruct (first_occurrence _ _ Hin) as (p1 & p2 & -> & Hno).
    rewrite <- app_assoc, <- app_comm_cons in H.
    destruct (separator_rejected false p1 (p2 ++ given ++ post) Hno)
      as (x & Hx & _); [discriminate|].
    rewrite Hx in H. discriminate. }
  destruct (parse_args_done _ ns H) as (items & st & Hp & Hc & -> & _ & _).
  rewrite (pattern_app pre _ Hno) in Hp.
  destruct (arg_strings_pattern pre) as [ip|x]; simpl bind in Hp; [|discriminate].
  destruct (passes_items a token given Ha Hgiven) as (Htok & G & HG & Hhead & Hloop).
  rewrite HG in Hp.
  destruct (arg_strings_pattern post) as [l|x] eqn:Hl; simpl bind in Hp; [|discriminate].
  injection Hp as <-.
  rewrite (consume_app (G ++ l) (Hhead l)) in Hc.
  destruct (consume ip initial_state) as [st1|x]; simpl bind in Hc; [|discriminate].
  rewrite Hloop in Hc.
  destruct (take_action a [token] st1) as [st2|x] eqn:E; simpl bind in Hc; [|discriminate].
  rewrite (consume_leaves_field a l st2 st (items_do_not_name a post l Hl Hpost) Hc).
  destruct (take_action_done _ _ _ _ E) as (_ & val & Hv & ->). simpl.
  rewrite field_setattr_same by exact Ha.
  destruct (get_values_one a token val Ha Hv) as [[Heq _]|(_ & Hg & _)].
  - contradiction.
  - exact Hg.
Qed.

Lemma last_value_is_stored_witness :
  takes_argument Model = true
  /\ passes Model (py "large-v3") [py "--model"; py "large-v3"]
  /\ (forall s, In s [py "--audio=a.wav"] -> named_action s <> Some Model)
  /\ Argparse.parse_args ([py "--model=tiny"] ++ [py "--model"; py "large-v3"]
                          ++ [py "--audio=a.wav"])
     = Done (setattr audio_only_args Model (PyStr (py "large-v3")))
  /\ get_value Model (py "large-v3")
     = Done (field (setattr audio_only_args Model (PyStr (py "large-v3"))) Model).
Proof.
  assert (G : passes Model (py "large-v3") [py "--model"; py "large-v3"])
    by (apply PassesNext; reflexivity).
  assert (N : forall s, In s [py "--audio=a.wav"] -> named_action s <> Some Model)
    by (intros s [<-|[]]; vm_compute; discriminate).
  assert (P : Argparse.parse_args ([py "--model=tiny"] ++ [py "--model"; py "large-v3"]
                                   ++ [py "--audio=a.wav"])
              = Done (setattr audio_only_args Model (PyStr (py "large-v3"))))
    by (vm_compute; reflexivity).
  split; [reflexivity|]. split; [exact G|]. split; [exact N|]. split; [exact P|].
  exact (last_value_is_stored [py "--model=tiny"] [py "--model"; py "large-v3"]
           [py "--audio=a.wav"] Model (py "large-v3") _ eq_refl G N P).
Defined.


(** *** Command lines that are accepted *)

Lemma take_action_accepts (a : action) (token : pystr) (v : pyval) (st : state) :
  takes_argument a = true ->
  token <> py "--" ->
  get_value a token = Done v ->
  check_value a v = Done tt ->
  take_action a [token] st
    = Done {| namespace := setattr (namespace st) a v;
              seen_actions := a :: seen_actions st;
              extras := extras st |}.
Proof.
  intros Ha Hd Hg Hc. unfold take_action, get_values.
  cbn [remove_first]. apply str_eqb_neq in Hd. rewrite Hd, Ha, Hg.
  cbn [bind]. rewrite Hc. cbn [bind]. destruct a; try discriminate; reflexivity.
Qed.

(** What the loop does with an attached value, whatever the value. *)
Lemma attached_items (a : action) (s token : pystr) :
  takes_argument a = true ->
  attached_value a s = Some token ->
  exists t,
    parse_optional s = IsOptional t
    /\ s <> py "--"
    /\ forall l st,
         consume ((s, O t) :: l) st = bind (take_action a [token] st) (consume l).
Proof.
  intros Ha Hs. destruct (attached_value_tuple _ _ _ Hs) as [os Hopt].
  exists (OptionTuple (Some a) os (Some token)). split; [exact Hopt|]. split.
  - apply str_eqb_neq. exact (named_not_separator _ _ Hopt).
  - intros l st. cbn [consume ot_action ot_explicit_arg ot_option_string].
    rewrite (explicit_loop_store a os token Ha). cbn [take_actions].
    destruct (take_action a [token] st); reflexivity.
Qed.

Lemma take_action_separator (a : action) (st : state) :
  takes_argument a = true ->
  take_action a [py "--"] st
    = Done {| namespace := setattr (namespace st) a (PyList []);
              seen_actions := a :: seen_actions st;
              extras := extras st |}.
Proof. intros Ha. destruct a; try discriminate; reflexivity. Qed.

(** The loop over an accepted command line stores every value and leaves
    no extras. *)
Lemma accepted_loop (argv : list pystr) (actions : list action) :
  accepted argv actions ->
  exists items,
    arg_strings_pattern argv = Done items
    /\ forall st, exists st',
         consume items st = Done st'
         /\ extras st' = extras st
         /\ seen_actions st' = rev actions ++ seen_actions st.
Proof.
  induction 1 as [|a token given rest actions v Ha Hgiven Hg Hc Hrest IH
                  |a s rest actions Ha Hs Hrest IH].
  - exists []. split; [reflexivity|]. intros st. exists st. auto.
  - destruct IH as (l & Hl & Hloop).
    destruct (passes_items a token given Ha Hgiven) as (Htok & G & HG & _ & HGloop).
    exists (G ++ l). split.
    + rewrite HG, Hl. reflexivity.
    + intros st. rewrite HGloop.
      rewrite (take_action_accepts a token v st Ha Htok Hg Hc). cbn [bind].
      match goal with
      | |- context [consume l ?s] => destruct (Hloop s) as (st' & Hst' & Hex & Hseen)
      end.
      exists st'. split; [exact Hst'|]. split; [exact Hex|].
      rewrite Hseen. simpl. rewrite <- app_assoc. reflexivity.
  - destruct IH as (l & Hl & Hloop).
    destruct (attached_items a s (py "--") Ha Hs) as (t & Hopt & Hne & Hcons).
    exists ((s, O t) :: l). split.
    + cbn [arg_strings_pattern]. apply str_eqb_neq in Hne. rewrite Hne, Hopt, Hl.
      reflexivity.
    + intros st. rewrite Hcons, (take_action_separator a st Ha). cbn [bind].
      match goal with
      | |- context [consume l ?s] => destruct (Hloop s) as (st' & Hst' & Hex & Hseen)
      end.
      exists st'. split; [exact Hst'|]. split; [exact Hex|].
      rewrite Hseen. simpl. rewrite <- app_assoc. reflexivity.
Qed.

Lemma seen_audio (l : list action) :
  existsb (action_eqb Audio) l = true <-> In Audio l.
Proof.
  rewrite existsb_exists. split.
  - intros (b & Hb & E). destruct b; try discriminate. exact Hb.
  - intros H. exists Audio. split; [exact H|reflexivity].
Qed.

(** Without [--], every argument string has the letter that
    [_parse_optional] gives it. *)
Lemma pattern_strict (argv : list pystr) (items : list (pystr * pattern)) :
  ~ In (py "--") argv ->
  arg_strings_pattern argv = Done items ->
  map fst items = argv
  /\ Forall (fun it => match snd it with
                       | A => parse_optional (fst it) = NotOptional
                       | O t => parse_optional (fst it) = IsOptional t
                       | Dash => False
                       end) items.
Proof.
  revert items. induction argv as [|s argv IH]; intros items Hno H.
  - simpl in H. injection H as <-. split; [reflexivity|constructor].
  - cbn [arg_strings_pattern] in H.
    assert (Hs : str_eqb s (py "--") = false).
    { apply str_eqb_neq. intros ->. apply Hno. left. reflexivity. }
    rewrite Hs in H.
    assert (Hno' : ~ In (py "--") argv) by (intros Hin; apply Hno; right; exact Hin).
    destruct (parse_optional s) as [|t|] eqn:Hp; try discriminate;
      destruct (arg_strings_pattern argv) as [l|]; simpl in H; try discriminate;
      injection H as <-; destruct (IH l Hno' eq_refl) as [Hm Hf];
      (split; [simpl; rewrite Hm; reflexivity|constructor; [exact Hp|exact Hf]]).
Qed.

(** The loop never takes a string out of [extras]. *)
Lemma consume_extras_grow (items : list (pystr * pattern)) (st st' : state) :
  consume items st = Done st' ->
  (List.length (extras st) <= List.length (extras st'))%nat.
Proof.
  intros H.
  apply (consume_keeps (fun _ => True)
           (fun s => (List.length (extras st) <= List.length (extras s))%nat))
    with (items := items) (st := st); auto.
  - intros s st0 H0. unfold add_extra. simpl. rewrite length_app. simpl. lia.
  - intros a v st0 st1 _ _ H0 H1.
    destruct (take_action_done _ _ _ _ H1) as (_ & val & _ & ->). exact H0.
  - apply Forall_forall. intros [s [|t|]] _; unfold item_allows; simpl; auto.
    destruct (ot_action t); exact I.
Qed.

Lemma extra_is_kept (s : pystr) (rest : list (pystr * pattern)) (st st' : state) :
  consume rest (add_extra s st) = Done st' -> extras st' <> extras st.
Proof.
  intros H E. apply consume_extras_grow in H. rewrite E in H.
  unfold add_extra in H. simpl in H. rewrite length_app in H. simpl in H. lia.
Qed.

Lemma tuple_is_flag (a : action) (s os : pystr) :
  parse_optional s = IsOptional (OptionTuple (Some a) os None) -> is_flag a s = true.
Proof. intros H. unfold is_flag. rewrite H. destruct a; reflexivity. Qed.

Lemma tuple_attached_value (a : action) (s os e : pystr) :
  parse_optional s = IsOptional (OptionTuple (Some a) os (Some e)) ->
  attached_value a s = Some e.
Proof. intros H. unfold attached_value. rewrite H. destruct a; reflexivity. Qed.

(** A loop that ends without extras went through options with values
    only. *)
Lemma consume_groups (items : list (pystr * pattern)) :
  forall st st',
    Forall (fun it => match snd it with
                      | A => parse_optional (fst it) = NotOptional
                      | O t => parse_optional (fst it) = IsOptional t
                      | Dash => False
                      end) items ->
    consume items st = Done st' ->
    extras st' = extras st ->
    exists actions,
      accepted (map fst items) actions
      /\ seen_actions st' = rev actions ++ seen_actions st.
Proof.
  remember (List.length items) as n eqn:Hn. revert items Hn.
  induction n as [n IH] using lt_wf_ind. intros items Hn st st' Hall Hc Hex.
  subst n. destruct items as [|[s p] rest].
  - simpl in Hc. injection Hc as <-. exists []. split; [constructor|reflexivity].
  - inversion Hall as [|? ? Hit Hrest]; subst. simpl in IH, Hit.
    destruct p as [|t|]; cbn [consume] in Hc.
    + exfalso. exact (extra_is_kept s rest st st' Hc Hex).
    + destruct t as [[a|] os oe];
        cbn [ot_action ot_explicit_arg ot_option_string] in Hc.
      2: { exfalso. exact (extra_is_kept s rest st st' Hc Hex). }
      destruct (takes_argument a) eqn:Ha.
      2: { exfalso. destruct a; try discriminate.
           destruct (consume_help s os oe rest st) as [x Hx].
           cbn [consume ot_action ot_explicit_arg ot_option_string] in Hx.
           rewrite Hx in Hc. discriminate. }
      destruct oe as [e|].
      * rewrite (explicit_loop_store a os e Ha) in Hc. cbn [take_actions] in Hc.
        destruct (take_action a [e] st) as [st1|x] eqn:E; simpl in Hc; [|discriminate].
        destruct (take_action_done _ _ _ _ E) as (_ & val & Hv & Hst1).
        assert (Hex1 : extras st' = extras st1) by (rewrite Hst1; exact Hex).
        destruct (IH (List.length rest) (Nat.lt_succ_diag_r _) rest eq_refl
                     st1 st' Hrest Hc Hex1) as (actions & Hacc & Hseen).
        exists (a :: actions). split.
        -- destruct (get_values_one a e val Ha Hv) as [[-> _]|(Hne & Hg & Hck)].
           ++ apply AcceptedSeparator; auto. exact (tuple_attached_value a s os _ Hit).
           ++ apply (@AcceptedValue a e [s] (map fst rest) actions val); auto.
              apply PassesAttached; [exact (tuple_attached_value a s os e Hit)|exact Hne].
        -- rewrite Hseen, Hst1. simpl. rewrite <- app_assoc. reflexivity.
      * rewrite Ha in Hc.
        destruct rest as [|[arg [|t'|]] rest']; try discriminate.
        cbn [app take_actions] in Hc.
        destruct (take_action a [arg] st) as [st1|x] eqn:E; simpl in Hc; [|discriminate].
        destruct (take_action_done _ _ _ _ E) as (_ & val & Hv & Hst1).
        assert (Hex1 : extras st' = extras st1) by (rewrite Hst1; exact Hex).
        pose proof (Forall_inv Hrest) as Harg. pose proof (Forall_inv_tail Hrest) as Hrest'.
        simpl in Harg.
        destruct (IH (List.length rest') (Nat.lt_trans _ _ _ (Nat.lt_succ_diag_r _)
                                            (Nat.lt_succ_diag_r _))
                     rest' eq_refl st1 st' Hrest' Hc Hex1) as (actions & Hacc & Hseen).
        exists (a :: actions). split.
        -- destruct (get_values_one a arg val Ha Hv) as [[-> _]|(Hne & Hg & Hck)].
           ++ vm_compute in Harg. discriminate.
           ++ apply (@AcceptedValue a arg [s; arg] (map fst rest') actions val); auto.
              apply PassesNext; [exact (tuple_is_flag a s os Hit)|exact Harg].
        -- rewrite Hseen, Hst1. simpl. rewrite <- app_assoc. reflexivity.
    + contradiction.
Qed.

(** X4: the command lines that [parse_args] accepts are exactly the
    sequences of options, each with a value that its action accepts, that
    name [--audio] at least once: the options may come in any order and any
    number of times, in full or abbreviated, the value as the next string or
    attached; anything else (a stray string, an unknown option, [--], a
    refused value, a help flag) ends the process. *)
Theorem accepted_command_lines (argv : list pystr) :
  (exists ns, Argparse.parse_args argv = Done ns)
  <-> (exists actions, accepted argv actions /\ In Audio actions).
Proof.
  split.
  - intros [ns H].
    assert (Hno : ~ In (py "--") argv).
    { intros Hin. destruct (first_occurrence _ _ Hin) as (p1 & p2 & -> & Hno).
      destruct (separator_rejected false p1 p2 Hno) as (x & Hx & _); [discriminate|].
      rewrite Hx in H. discriminate. }
    destruct (parse_args_done argv ns H) as (items & st & Hp & Hc & _ & Hex & Hseen).
    destruct (pattern_strict argv items Hno Hp) as [Hm Hall].
    destruct (consume_groups items initial_state st Hall Hc Hex) as (actions & Hacc & Hs).
    exists actions. rewrite Hm in Hacc. split; [exact Hacc|].
    rewrite Hs in Hseen. simpl in Hseen. rewrite app_nil_r in Hseen.
    apply seen_audio in Hseen. apply in_rev. exact Hseen.
  - intros (actions & Hacc & Haudio).
    destruct (accepted_loop argv actions Hacc) as (items & Hp & Hloop).
    destruct (Hloop initial_state) as (st & Hst & Hex & Hseen).
    exists (namespace st).
    rewrite parse_args_unfold, Hp, Hst. unfold after_loop. cbn [bind].
    assert (Hs : existsb (action_eqb Audio) (seen_actions st) = true).
    { apply seen_audio. rewrite Hseen. apply in_or_app. left.
      apply in_rev in Haudio. exact Haudio. }
    rewrite Hs. cbn [bind]. rewrite Hex. reflexivity.
Qed.

(** X5: when every option is given an accepted value but [--audio] is not
    among them, the one error is that [--audio] is required. *)
Theorem missing_audio_is_the_error (e : env) (argv : list pystr) (actions : list action) :
  accepted argv actions ->
  ~ In Audio actions ->
  Argparse.parse_args argv = Exit (UsageError (RequiredArguments [Audio]))
  /\ run e argv = {| exit_status := 2;
                     standard_output := [];
                     standard_error :=
                       format_usage_error e (RequiredArguments [Audio]);
                     library_calls := [] |}.
Proof.
  intros Hacc Hno.
  assert (H : Argparse.parse_args argv = Exit (UsageError (RequiredArguments [Audio]))).
  { destruct (accepted_loop argv actions Hacc) as (items & Hp & Hloop).
    destruct (Hloop initial_state) as (st & Hst & Hex & Hseen).
    rewrite parse_args_unfold, Hp, Hst. unfold after_loop. cbn [bind].
    destruct (existsb (action_eqb Audio) (seen_actions st)) eqn:Hs; [|reflexivity].
    exfalso. apply Hno. apply seen_audio in Hs. rewrite Hseen in Hs.
    simpl in Hs. rewrite app_nil_r in Hs. apply in_rev. exact Hs. }
  split; [exact H|]. apply run_usage_error. exact H.
Qed.

Lemma missing_audio_is_the_error_witness :
  accepted ([py "--model"; py "tiny"] ++ [py "--language=de"] ++ []) [Model; Language]
  /\ ~ In Audio [Model; Language]
  /\ Argparse.parse_args ([py "--model"; py "tiny"] ++ [py "--language=de"] ++ [])
     = Exit (UsageError (RequiredArguments [Audio])).
Proof.
  assert (A : accepted ([py "--model"; py "tiny"] ++ [py "--language=de"] ++ [])
                       [Model; Language]).
  { apply AcceptedValue with (token := py "tiny") (v := PyStr (py "tiny"));
      [reflexivity|apply PassesNext; reflexivity|reflexivity|reflexivity|].
    apply AcceptedValue with (token := py "de") (v := PyStr (py "de"));
      [reflexivity
      |apply PassesAttached; [reflexivity|vm_compute; discriminate]
      |reflexivity|reflexivity|].
    apply AcceptedNil. }
  assert (N : ~ In Audio [Model; Language])
    by (intros [H|[H|[]]]; discriminate).
  split; [exact A|]. split; [exact N|].
  exact (proj1 (missing_audio_is_the_error sample_env _ _ A N)).
Defined.

(** *** The shape of a run *)

(** X6: the library is called in one fixed order, each call at most once
    and each only after the one before returned: the import, then the
    constructor with the model, device and compute type as parsed, then
    [transcribe] with the path as parsed, the clamped beam size, the
    language or [None], and the filter flag. *)
Theorem library_calls_follow_protocol (e : env) (argv : list pystr) :
  library_calls (run e argv) = []
  \/ exists args,
       Argparse.parse_args argv = Done args
       /\ (library_calls (run e argv) = [CallImport]
           \/ library_calls (run e argv)
              = [ CallImport;
                  CallWhisperModel (model args) (device args) (compute_type args) ]
           \/ exists z,
                beam_size args = PyInt z
                /\ library_calls (run e argv)
                   = [ CallImport;
                       CallWhisperModel (model args) (device args) (compute_type args);
                       CallTranscribe (audio args) (Z.max 1 z)
                                      (py_or (Argparse.language args) PyNone)
                                      (eq_str (vad_filter args) (py "true")) ]).
Proof.
  destruct (Argparse.parse_args argv) as [args|[err|]] eqn:H.
  2: { left. rewrite (run_usage_error e argv err H). reflexivity. }
  2: { left. rewrite (run_help e argv H). reflexivity. }
  right. exists args. split; [reflexivity|]. rewrite (run_parsed e argv args H).
  destruct (run_after_parse_cases e args)
    as [[exc Hi]|[(fw & exc & cs & Himp & Hr)|(fw & m & z & l & info & Himp & Hinit & Hz & Ht)]].
  - left. rewrite (run_import_raises e args exc Hi). reflexivity.
  - right. rewrite (run_second_try_raises e args fw exc cs Himp Hr).
    destruct Hr as [Hr|m Hr Hn Hx|m z Hr Hz Ht|m z segs info Hr Hz Ht Hf]; simpl.
    + left. reflexivity.
    + left. reflexivity.
    + right. exists z. split; [exact Hz|reflexivity].
    + right. exists z. split; [exact Hz|reflexivity].
  - right. right. rewrite (run_success e args fw m z l info Himp Hinit Hz Ht).
    exists z. split; [exact Hz|reflexivity].
Qed.

(** X7: the exit status is 0, 1 or 2; status 0 comes with nothing on
    standard error and any other status with nothing on standard output. *)
Theorem exit_status_and_streams (e : env) (argv : list pystr) :
  (exit_status (run e argv) = 0%Z \/ exit_status (run e argv) = 1%Z
   \/ exit_status (run e argv) = 2%Z)
  /\ (exit_status (run e argv) = 0%Z -> standard_error (run e argv) = [])
  /\ (exit_status (run e argv) <> 0%Z -> standard_output (run e argv) = []).
Proof.
  destruct (Argparse.parse_args argv) as [args|[err|]] eqn:H.
  2: { rewrite (run_usage_error e argv err H). simpl.
       repeat split; auto. discriminate. }
  2: { rewrite (run_help e argv H). simpl. repeat split; auto. congruence. }
  rewrite (run_parsed e argv args H).
  destruct (run_after_parse_cases e args)
    as [[exc Hi]|[(fw & exc & cs & Himp & Hr)|(fw & m & z & l & info & Himp & Hinit & Hz & Ht)]].
  - rewrite (run_import_raises e args exc Hi). simpl. repeat split; auto. discriminate.
  - rewrite (run_second_try_raises e args fw exc cs Himp Hr). simpl.
    repeat split; auto. discriminate.
  - rewrite (run_success e args fw m z l info Himp Hinit Hz Ht). simpl.
    repeat split; auto. congruence.
Qed.

(** X8: the language hint that [transcribe] gets is [None] or a non-empty
    string: an empty [--language] value stands for no hint. *)
Theorem language_hint_is_none_or_nonempty (e : env) (argv : list pystr) :
  Forall language_hint_ok (library_calls (run e argv)).
Proof.
  destruct (Argparse.parse_args argv) as [args|[err|]] eqn:H.
  2: { rewrite (run_usage_error e argv err H). constructor. }
  2: { rewrite (run_help e argv H). constructor. }
  rewrite (run_parsed e argv args H).
  assert (Hl : language_hint_ok
                 (CallTranscribe (audio args) 1 (py_or (Argparse.language args) PyNone)
                                 true)).
  { destruct (parsed_typed argv args H) as (st & -> & [Hf _] & _).
    simpl. unfold py_or.
    destruct (Hf Language eq_refl) as [Hs|[[[|c s] Hs]|Hs]]; simpl in Hs;
      rewrite Hs; simpl; eauto. }
  destruct (run_after_parse_cases e args)
    as [[exc Hi]|[(fw & exc & cs & Himp & Hr)|(fw & m & z & l & info & Himp & Hinit & Hz & Ht)]].
  - rewrite (run_import_raises e args exc Hi). repeat constructor.
  - rewrite (run_second_try_raises e args fw exc cs Himp Hr).
    destruct Hr; simpl;
      repeat (apply Forall_cons; [first [exact I|exact Hl]|]); apply Forall_nil.
  - rewrite (run_success e args fw m z l info Himp Hinit Hz Ht). simpl.
    repeat (apply Forall_cons; [first [exact I|exact Hl]|]); apply Forall_nil.
Qed.


(** *** Command lines that are rejected *)

(** X9: the script takes no positional argument, so the separator [--] is
    never accepted: a command line that holds it ends in argument parsing,
    with a usage error when no string before it names the help action, and
    nothing of the library is called. *)
Theorem separator_is_rejected (e : env) (argv : list pystr) :
  In (py "--") argv ->
  (exists x, Argparse.parse_args argv = Exit x)
  /\ library_calls (run e argv) = []
  /\ (no_help argv -> exit_status (run e argv) = 2%Z).
Proof.
  intros Hin. destruct (first_occurrence _ _ Hin) as (p1 & p2 & -> & Hno).
  split; [|split].
  - apply (verdict_run e). apply separator_rejected; [exact Hno|discriminate].
  - apply (verdict_run e). apply separator_rejected; [exact Hno|discriminate].
  - intros Hh.
    destruct (verdict_run_strict e (p1 ++ py "--" :: p2)) as (err & _ & ->);
      [|reflexivity].
    apply separator_rejected; [exact Hno|].
    intros _ s Hs. apply Hh. apply in_or_app. left. exact Hs.
Qed.

Lemma separator_is_rejected_witness :
  In (py "--") [py "--audio"; py "a.wav"; py "--"; py "b.wav"]
  /\ no_help [py "--audio"; py "a.wav"; py "--"; py "b.wav"]
  /\ library_calls (run sample_env [py "--audio"; py "a.wav"; py "--"; py "b.wav"]) = []
  /\ exit_status (run sample_env [py "--audio"; py "a.wav"; py "--"; py "b.wav"]) = 2%Z.
Proof.
  assert (H : In (py "--") [py "--audio"; py "a.wav"; py "--"; py "b.wav"])
    by (right; right; left; reflexivity).
  assert (NH : no_help [py "--audio"; py "a.wav"; py "--"; py "b.wav"])
    by (intros s [<-|[<-|[<-|[<-|[]]]]]; vm_compute; discriminate).
  destruct (separator_is_rejected sample_env _ H) as (_ & Hc & Hs).
  split; [exact H|]. split; [exact NH|]. split; [exact Hc|exact (Hs NH)].
Defined.

(** An option with nothing after it, or with a string after it that is not
    an argument, is rejected. *)
Lemma flag_without_value_rejected (strict : bool) (a : action)
  (pre : list pystr) (flag : pystr) (rest : list pystr) :
  takes_argument a = true ->
  is_flag a flag = true ->
  match rest with
  | [] => True
  | v :: _ => parse_optional v <> NotOptional
  end ->
  (strict = true -> no_help pre) ->
  verdict strict (Argparse.parse_args (pre ++ flag :: rest)).
Proof.
  intros Ha Hflag Hrest Hhelp.
  destruct (in_dash_dec pre) as [Hin|Hno].
  { destruct (first_occurrence _ _ Hin) as (p1 & p2 & -> & Hno).
    rewrite <- app_assoc. rewrite <- app_comm_cons.
    apply separator_rejected; [exact Hno|].
    intros Hs s Hs'. apply (Hhelp Hs). apply in_or_app. left. exact Hs'. }
  rewrite parse_args_unfold, (pattern_app pre _ Hno).
  destruct (arg_strings_pattern pre) as [ip|x] eqn:Hp; simpl bind.
  2: { destruct (pattern_exit _ _ Hp) as [err ->]. apply verdict_usage. }
  assert (Hall : Forall (item_allows (allowed strict)) ip).
  { apply (items_allow _ pre ip Hp). apply no_help_allowed. exact Hhelp. }
  destruct (is_flag_tuple _ _ Hflag) as [os Hopt].
  cbn [arg_strings_pattern].
  rewrite (named_not_separator _ _ Hopt), Hopt.
  destruct rest as [|v rest'].
  - simpl bind. apply consume_prefix_verdict; [exact I| |exact Hall].
    intros st'. cbn [consume ot_action ot_explicit_arg]. rewrite Ha.
    apply verdict_usage.
  - cbn [arg_strings_pattern].
    destruct (str_eqb v (py "--")).
    + simpl bind. apply consume_prefix_verdict; [exact I| |exact Hall].
      intros st'. cbn [consume ot_action ot_explicit_arg]. rewrite Ha.
      apply verdict_usage.
    + destruct (parse_optional v) as [|t'|matches]; [contradiction| |].
      * destruct (arg_strings_pattern rest') as [ir|x] eqn:Hpost; simpl bind.
        2: { destruct (pattern_exit _ _ Hpost) as [err ->]. apply verdict_usage. }
        apply consume_prefix_verdict; [exact I| |exact Hall].
        intros st'. cbn [consume ot_action ot_explicit_arg]. rewrite Ha.
        apply verdict_usage.
      * simpl bind. apply verdict_usage.
Qed.

(** X10: an option needs its value as an argument: when nothing follows the
    option, or what follows looks like an option itself (it starts with a
    dash and is no negative number, as a file named [-clip.wav]), the
    command line is rejected in argument parsing and nothing of the library
    is called.  (Such a value can be attached with [=].) *)
Theorem option_needs_an_argument
  (e : env) (a : action) (pre : list pystr) (flag : pystr) (rest : list pystr) :
  takes_argument a = true ->
  is_flag a flag = true ->
  match rest with
  | [] => True
  | v :: _ => parse_optional v <> NotOptional
  end ->
  (exists x, Argparse.parse_args (pre ++ flag :: rest) = Exit x)
  /\ library_calls (run e (pre ++ flag :: rest)) = []
  /\ (no_help pre -> exit_status (run e (pre ++ flag :: rest)) = 2%Z).
Proof.
  intros Ha Hflag Hrest.
  assert (H : forall strict, (strict = true -> no_help pre) ->
                verdict strict (Argparse.parse_args (pre ++ flag :: rest))).
  { intros strict Hs. apply (flag_without_value_rejected strict a); assumption. }
  split; [|split].
  - apply (verdict_run e). apply H. discriminate.
  - apply (verdict_run e). apply H. discriminate.
  - intros Hno.
    destruct (verdict_run_strict e (pre ++ flag :: rest)) as (err & _ & ->);
      [|reflexivity].
    apply H. intros _. exact Hno.
Qed.

Lemma option_needs_an_argument_witness :
  takes_argument Audio = true
  /\ is_flag Audio (py "--audio") = true
  /\ parse_optional (py "-clip.wav") <> NotOptional
  /\ no_help [py "--model"; py "tiny"]
  /\ exit_status (run sample_env ([py "--model"; py "tiny"]
                                  ++ py "--audio" :: [py "-clip.wav"])) = 2%Z
  /\ exists ns, Argparse.parse_args [py "--model"; py "tiny"; py "--audio=-clip.wav"]
                = Done ns.
Proof.
  assert (N : parse_optional (py "-clip.wav") <> NotOptional)
    by (vm_compute; discriminate).
  assert (NH : no_help [py "--model"; py "tiny"])
    by (intros s [<-|[<-|[]]]; vm_compute; discriminate).
  destruct (option_needs_an_argument sample_env Audio [py "--model"; py "tiny"]
              (py "--audio") [py "-clip.wav"] eq_refl eq_refl N)
    as (_ & _ & Hs).
  split; [reflexivity|]. split; [reflexivity|]. split; [exact N|].
  split; [exact NH|]. split; [exact (Hs NH)|].
  eexists. vm_compute. reflexivity.
Defined.

(** *** Abbreviations and attached values *)

Lemma startswith_firstn (s p : pystr) :
  startswith s p = true -> p = firstn (List.length p) s.
Proof.
  revert s. induction p as [|c p IH]; intros s H; [reflexivity|].
  destruct s as [|d s]; simpl in H; [discriminate|].
  apply andb_true_iff in H. destruct H as [Hc Hp].
  apply N.eqb_eq in Hc. subst d. simpl. rewrite <- (IH s Hp). reflexivity.
Qed.

(** What [_parse_optional] makes of a prefix of a long option that goes
    beyond the two dashes, alone and with an attached value: the option
    itself, there being no two long options with the same first letter. *)
Lemma prefix_tuples (os p v : pystr) (a : action) :
  In (os, a) long_options ->
  startswith os p = true ->
  (3 <= List.length p)%nat ->
  parse_optional p = IsOptional (OptionTuple (Some a) os None)
  /\ parse_optional (p ++ py "=" ++ v) = IsOptional (OptionTuple (Some a) os (Some v)).
Proof.
  intros Hin Hp Hlen.
  rewrite (startswith_firstn os p Hp). remember (List.length p) as n eqn:Hn.
  clear Hp Hn p.
  unfold long_options in Hin. simpl in Hin.
  repeat (destruct Hin as [Hin|Hin];
          [injection Hin as <- <-;
           do 3 (destruct n as [|n]; [lia|]);
           do 12 (destruct n as [|n]; [split; vm_compute; reflexivity|]);
           split; vm_compute; reflexivity|]).
  contradiction.
Qed.

Lemma long_option_is_prefix (os : pystr) (a : action) :
  In (os, a) long_options ->
  startswith os os = true /\ (3 <= List.length os)%nat.
Proof.
  unfold long_options. simpl. intros Hin.
  repeat (destruct Hin as [Hin|Hin];
          [injection Hin as <- <-; split; [reflexivity|vm_compute; lia]|]).
  contradiction.
Qed.

(** The loop does not look at the string of an option that names an
    action. *)
Lemma consume_named (s s' : pystr) (t : option_tuple) (a : action)
  (rest : list (pystr * pattern)) (st : state) :
  ot_action t = Some a ->
  consume ((s, O t) :: rest) st = consume ((s', O t) :: rest) st.
Proof. intros H. cbn [consume]. rewrite H. reflexivity. Qed.

(** Two strings that [_parse_optional] reads as the same option with the
    same attached value can stand for each other. *)
Lemma same_tuple_same_parse (s s' : pystr) (t : option_tuple) (a : action)
  (pre post : list pystr) :
  parse_optional s = IsOptional t ->
  parse_optional s' = IsOptional t ->
  ot_action t = Some a ->
  ~ In (py "--") pre ->
  Argparse.parse_args (pre ++ s :: post) = Argparse.parse_args (pre ++ s' :: post).
Proof.
  intros Hs Hs' Ha Hno.
  rewrite !parse_args_unfold, !(pattern_app pre _ Hno).
  cbn [arg_strings_pattern].
  rewrite (named_not_separator s t Hs), (named_not_separator s' t Hs'), Hs, Hs'.
  destruct (arg_strings_pattern pre) as [ip|x]; [|reflexivity].
  destruct (arg_strings_pattern post) as [l|x]; [|reflexivity].
  cbn [bind].
  rewrite (consume_app ((s, O t) :: l) I ip initial_state).
  rewrite (consume_app ((s', O t) :: l) I ip initial_state).
  destruct (consume ip initial_state) as [st|x]; [|reflexivity].
  cbn [bind]. rewrite (consume_named s s' t a l st Ha). reflexivity.
Qed.

Lemma same_parse_same_run (e : env) (argv argv' : list pystr) :
  Argparse.parse_args argv = Argparse.parse_args argv' ->
  run e argv = run e argv'.
Proof.
  intros H. unfold run, main, Script.parse_args. rewrite H. reflexivity.
Qed.

(** X11: a long option can be abbreviated to any of its prefixes that goes
    beyond the two dashes ([--aud] for [--audio], [--v] for
    [--vad-filter]), with the value as the next string or attached with
    [=]: the run is the same as with the full name, in its exit status, in
    both streams and in the library calls.  (The strings before it hold no
    [--].) *)
Theorem abbreviation_runs_as_full_name
  (e : env) (os p v : pystr) (a : action) (pre post : list pystr) :
  In (os, a) long_options ->
  startswith os p = true ->
  (3 <= List.length p)%nat ->
  ~ In (py "--") pre ->
  run e (pre ++ p :: post) = run e (pre ++ os :: post)
  /\ run e (pre ++ (p ++ py "=" ++ v) :: post)
     = run e (pre ++ (os ++ py "=" ++ v) :: post).
Proof.
  intros Hin Hp Hlen Hno.
  destruct (prefix_tuples os p v a Hin Hp Hlen) as [Hflag Hatt].
  destruct (long_option_is_prefix os a Hin) as [Hos Hl].
  destruct (prefix_tuples os os v a Hin Hos Hl) as [Hflag' Hatt'].
  split; apply same_parse_same_run.
  - exact (same_tuple_same_parse p os _ a pre post Hflag Hflag' eq_refl Hno).
  - exact (same_tuple_same_parse _ _ _ a pre post Hatt Hatt' eq_refl Hno).
Qed.

Lemma abbreviation_runs_as_full_name_witness :
  In (py "--compute-type", ComputeType) long_options
  /\ startswith (py "--compute-type") (py "--comp") = true
  /\ (3 <= List.length (py "--comp"))%nat
  /\ ~ In (py "--") [py "--audio"; py "a.wav"]
  /\ run sample_env ([py "--audio"; py "a.wav"] ++ py "--comp" :: [py "float16"])
     = run sample_env ([py "--audio"; py "a.wav"]
                       ++ py "--compute-type" :: [py "float16"]).
Proof.
  assert (H : In (py "--compute-type", ComputeType) long_options)
    by (do 4 right; left; reflexivity).
  assert (L : (3 <= List.length (py "--comp"))%nat) by (vm_compute; lia).
  assert (N : ~ In (py "--") [py "--audio"; py "a.wav"])
    by (intros [E|[E|[]]]; discriminate).
  split; [exact H|]. split; [reflexivity|]. split; [exact L|]. split; [exact N|].
  exact (proj1 (abbreviation_runs_as_full_name sample_env (py "--compute-type")
                  (py "--comp") [] ComputeType [py "--audio"; py "a.wav"]
                  [py "float16"] H eq_refl L N)).
Defined.

(** *** The help flag and ambiguous strings *)

Lemma long_prefix_unique (c : N) (x : pystr) (e : option pystr) :
  (List.length
     (flat_map (fun '(os, a) =>
                  if startswith os (45 :: 45 :: c :: x)%N
                  then [OptionTuple (Some a) os e] else [])
               option_string_actions) <= 1)%nat.
Proof.
  set (L := option_string_actions). vm_compute in L. subst L.
  cbn [flat_map startswith N.eqb Pos.eqb andb app].
  repeat match goal with
         | |- context [N.eqb c ?k] =>
             destruct (N.eqb_spec c k) as [->|?];
             [cbn [N.eqb Pos.eqb andb app];
              match goal with
              | |- context [if ?b then _ else _] => destruct b
              end; cbn; lia|]
         end.
  cbn. lia.
Qed.

(** The two branches of [_get_option_tuples]. *)
Lemma get_option_tuples_short (d : N) (rest : pystr) :
  d <> 45 ->
  get_option_tuples (45 :: d :: rest)
  = flat_map (fun '(os, a) =>
                if str_eqb os (firstn 2 (45 :: d :: rest))
                then [OptionTuple (Some a) os (Some (skipn 2 (45 :: d :: rest)))]
                else if startswith os (45 :: d :: rest)
                then [OptionTuple (Some a) os None] else [])
             option_string_actions.
Proof.
  intros Hd. destruct d as [|p]; [reflexivity|].
  repeat (destruct p as [p|p|]; try reflexivity).
  contradiction.
Qed.

Lemma option_tuples_unique (s : pystr) :
  45 :: s <> py "--" ->
  startswith (45 :: s) (py "--=") = false ->
  (List.length (get_option_tuples (45%N :: s)) <= 1)%nat.
Proof.
  intros Hs He. destruct s as [|d rest]; [simpl; lia|].
  destruct (N.eq_dec d 45) as [->|Hd].
  - destruct rest as [|c q]; [exfalso; apply Hs; reflexivity|].
    assert (Hc : (c =? 61) = false).
    { destruct (N.eqb_spec c 61) as [->|]; [|reflexivity].
      destruct q; vm_compute in He; discriminate. }
    cbn [get_option_tuples has_char existsb split1].
    change (61 =? 45) with false. change (45 =? 61) with false.
    rewrite (N.eqb_sym 61 c), Hc. cbn [orb].
    destruct (existsb (N.eqb 61) q).
    + destruct (split1 61 q) as [a b]. apply long_prefix_unique.
    + apply long_prefix_unique.
  - rewrite (get_option_tuples_short d rest Hd).
    set (L := option_string_actions). vm_compute in L. subst L.
    apply N.eqb_neq in Hd.
    cbn [flat_map firstn skipn str_eqb startswith app].
    rewrite ?(N.eqb_sym 45 d), ?Hd. change (45 =? 45) with true. cbn [andb app].
    repeat match goal with
           | |- context [if ?b then _ else _] => destruct b
           end; cbn; lia.
Qed.

(** [_parse_optional] finds one option at most for a string that does not
    start with [--=], the bare [--] apart. *)
Lemma not_ambiguous (s : pystr) :
  s <> py "--" ->
  startswith s (py "--=") = false ->
  ambiguous s = false.
Proof.
  intros Hs He. unfold ambiguous, parse_optional.
  destruct s as [|c s]; [reflexivity|].
  destruct (N.eqb_spec c 45) as [->|Hc]; cbn [negb]; [|reflexivity].
  destruct (lookup (45 :: s) option_string_actions); [reflexivity|].
  destruct (List.length (45%N :: s) =? 1)%nat; [reflexivity|].
  assert (Hu : (List.length (get_option_tuples (45%N :: s)) <= 1)%nat).
  { apply option_tuples_unique; [exact Hs|exact He]. }
  destruct (has_char 61 (45 :: s)).
  - destruct (split1 61 (45 :: s)) as [o x].
    destruct (lookup o option_string_actions); [reflexivity|].
    destruct (get_option_tuples (45 :: s)) as [|t [|t' l]]; simpl in Hu;
      [|reflexivity|lia].
    destruct (negative_number_matcher (45 :: s)); [reflexivity|].
    destruct (has_char 32 (45 :: s)); reflexivity.
  - destruct (get_option_tuples (45 :: s)) as [|t [|t' l]]; simpl in Hu;
      [|reflexivity|lia].
    destruct (negative_number_matcher (45 :: s)); [reflexivity|].
    destruct (has_char 32 (45 :: s)); reflexivity.
Qed.

(** The classification ends with an error only at an ambiguous string. *)
Lemma pattern_done (l : list pystr) :
  (forall s, In s l -> startswith s (py "--=") = false) ->
  exists items, arg_strings_pattern l = Done items.
Proof.
  induction l as [|s l IH]; intros H; [exists []; reflexivity|].
  cbn [arg_strings_pattern].
  destruct (str_eqb s (py "--")) eqn:Hs; [eexists; reflexivity|].
  apply str_eqb_neq in Hs.
  pose proof (not_ambiguous s Hs (H s (or_introl eq_refl))) as Hn.
  destruct IH as [items ->]; [intros x Hx; apply H; right; exact Hx|].
  unfold ambiguous in Hn.
  destruct (parse_optional s); [| |discriminate]; eexists; reflexivity.
Qed.

Lemma accepted_no_separator (argv : list pystr) (actions : list action) :
  accepted argv actions -> ~ In (py "--") argv.
Proof.
  induction 1 as [|a token given rest actions v Ha Hgiven Hg Hc Hrest IH
                  |a s rest actions Ha Hs Hrest IH].
  - intros [].
  - intros Hin. apply in_app_or in Hin. destruct Hin as [Hin|Hin]; [|exact (IH Hin)].
    destruct Hgiven as [flag Hflag Hnot|s Hs Hne].
    + destruct (is_flag_tuple _ _ Hflag) as [os Hopt].
      destruct Hin as [->|[->|[]]].
      * exact (separator_names_nothing _ Hopt).
      * vm_compute in Hnot. discriminate.
    + destruct (attached_value_tuple _ _ _ Hs) as [os Hopt].
      destruct Hin as [->|[]]. exact (separator_names_nothing _ Hopt).
  - intros [->|Hin]; [|exact (IH Hin)].
    destruct (attached_value_tuple _ _ _ Hs) as [os Hopt].
    exact (separator_names_nothing _ Hopt).
Qed.

(** X12: a help flag ([-h], [--help] or an abbreviation of it) that comes
    after options with accepted values ends the run with the help text on
    standard output and status 0, before the library is touched and
    whatever follows the flag - missing [--audio] and refused values
    included.  The one thing that comes first is a later string that
    starts with [--=]: it is ambiguous, and every string is classified
    before the first action runs. *)
Theorem help_flag_ends_the_run
  (e : env) (pre post : list pystr) (actions : list action) (flag : pystr) :
  accepted pre actions ->
  is_flag Help flag = true ->
  (forall s, In s post -> startswith s (py "--=") = false) ->
  run e (pre ++ flag :: post)
  = {| exit_status := 0;
       standard_output := format_help e;
       standard_error := [];
       library_calls := [] |}.
Proof.
  intros Hacc Hflag Hpost. apply run_help.
  destruct (accepted_loop pre actions Hacc) as (items & Hp & Hloop).
  destruct (Hloop initial_state) as (st & Hst & _ & _).
  destruct (is_flag_tuple _ _ Hflag) as [os Hopt].
  destruct (pattern_done post Hpost) as [l Hl].
  rewrite parse_args_unfold, (pattern_app pre _ (accepted_no_separator pre actions Hacc)).
  rewrite Hp. cbn [bind arg_strings_pattern].
  rewrite (named_not_separator _ _ Hopt), Hopt, Hl. cbn [bind].
  rewrite (consume_app ((flag, O (OptionTuple (Some Help) os None)) :: l) I
             items initial_state).
  rewrite Hst. reflexivity.
Qed.

Lemma help_flag_ends_the_run_witness :
  accepted ([py "--model"; py "tiny"] ++ []) [Model]
  /\ is_flag Help (py "--he") = true
  /\ (forall s, In s [py "--beam-size"; py "wide"; py "--"] ->
                startswith s (py "--=") = false)
  /\ exit_status (run sample_env (([py "--model"; py "tiny"] ++ [])
                                  ++ py "--he" :: [py "--beam-size"; py "wide"; py "--"]))
     = 0%Z.
Proof.
  assert (A : accepted ([py "--model"; py "tiny"] ++ []) [Model]).
  { apply AcceptedValue with (token := py "tiny") (v := PyStr (py "tiny"));
      [reflexivity|apply PassesNext; reflexivity|reflexivity|reflexivity|].
    apply AcceptedNil. }
  assert (P : forall s, In s [py "--beam-size"; py "wide"; py "--"] ->
                        startswith s (py "--=") = false)
    by (intros s [<-|[<-|[<-|[]]]]; reflexivity).
  split; [exact A|]. split; [reflexivity|]. split; [exact P|].
  rewrite (help_flag_ends_the_run sample_env _ _ [Model] (py "--he") A eq_refl P).
  reflexivity.
Defined.

(** X13: a string that starts with [--=] is ambiguous between all the long
    options, and ends the run with a usage error before any action runs,
    an earlier help flag included.  (No [--] comes before it.) *)
Theorem ambiguous_string_is_rejected
  (e : env) (pre post : list pystr) (s : pystr) :
  startswith s (py "--=") = true ->
  ~ In (py "--") pre ->
  exit_status (run e (pre ++ s :: post)) = 2%Z
  /\ standard_output (run e (pre ++ s :: post)) = []
  /\ library_calls (run e (pre ++ s :: post)) = [].
Proof.
  intros Hs Hno.
  assert (H : exists err, Argparse.parse_args (pre ++ s :: post) = Exit (UsageError err)).
  { rewrite parse_args_unfold, (pattern_app pre _ Hno).
    destruct (arg_strings_pattern pre) as [ip|x] eqn:Hp; cbn [bind].
    2: { destruct (pattern_exit _ _ Hp) as [err ->]. eauto. }
    pose proof (startswith_firstn s (py "--=") Hs) as Hf.
    destruct s as [|c1 [|c2 [|c3 q]]]; vm_compute in Hf; try discriminate Hf.
    injection Hf as <- <- <-.
    cbn [arg_strings_pattern].
    replace (str_eqb (45 :: 45 :: 61 :: q) (py "--")) with false by reflexivity.
    assert (Ha : exists m, parse_optional (45 :: 45 :: 61 :: q) = Ambiguous m)
      by (eexists; vm_compute; reflexivity).
    destruct Ha as [m ->]. eexists. reflexivity. }
  destruct H as [err H]. rewrite (run_usage_error e _ err H). auto.
Qed.

Lemma ambiguous_string_is_rejected_witness :
  startswith (py "--=x") (py "--=") = true
  /\ ~ In (py "--") [py "-h"]
  /\ exit_status (run sample_env ([py "-h"] ++ py "--=x" :: [])) = 2%Z.
Proof.
  assert (N : ~ In (py "--") [py "-h"]) by (intros [E|[]]; discriminate).
  split; [reflexivity|]. split; [exact N|].
  exact (proj1 (ambiguous_string_is_rejected sample_env [py "-h"] [] (py "--=x")
                  eq_refl N)).
Defined.


(** *** The text of the payload *)

Section Strip.

Variable f : N -> bool.

Lemma lstrip_by_head (s : pystr) (c : N) (rest : pystr) :
  lstrip_by f s = c :: rest -> f c = false.
Proof.
  induction s as [|d s IH]; simpl; [discriminate|].
  destruct (f d) eqn:E; [exact IH|].
  intros H. injection H as <- _. exact E.
Qed.

Lemma lstrip_by_suffix (s : pystr) : exists u, s = u ++ lstrip_by f s.
Proof.
  induction s as [|d s [u IH]]; simpl.
  - exists []. reflexivity.
  - destruct (f d).
    + exists (d :: u). simpl. rewrite <- IH. reflexivity.
    + exists []. reflexivity.
Qed.

Lemma lstrip_by_all (s : pystr) : forallb f s = true -> lstrip_by f s = [].
Proof.
  induction s as [|d s IH]; simpl; [reflexivity|].
  intros H. apply andb_true_iff in H. destruct H as [-> H]. exact (IH H).
Qed.

Lemma lstrip_by_fixed (s : pystr) :
  match s with [] => True | c :: _ => f c = false end -> lstrip_by f s = s.
Proof. destruct s as [|c s]; simpl; [reflexivity|]. intros ->. reflexivity. Qed.

Lemma rstrip_by_prefix (s : pystr) : exists u, s = rstrip_by f s ++ u.
Proof.
  unfold rstrip_by. destruct (lstrip_by_suffix (rev s)) as [u Hu].
  exists (rev u). rewrite <- rev_app_distr, <- Hu, rev_involutive. reflexivity.
Qed.

Lemma rstrip_by_last (s front : pystr) (c : N) :
  rstrip_by f s = front ++ [c] -> f c = false.
Proof.
  unfold rstrip_by. intros H.
  apply (f_equal (@rev N)) in H. rewrite rev_involutive, rev_app_distr in H.
  simpl in H. exact (lstrip_by_head _ _ _ H).
Qed.

(** What [strip] returns starts and ends with a character it keeps. *)
Lemma strip_by_ends (s : pystr) :
  (forall c rest, strip_by f s = c :: rest -> f c = false)
  /\ (forall front c, strip_by f s = front ++ [c] -> f c = false).
Proof.
  unfold strip_by. split.
  - intros c rest H. destruct (rstrip_by_prefix (lstrip_by f s)) as [u Hu].
    rewrite H in Hu. simpl in Hu. exact (lstrip_by_head _ _ _ Hu).
  - intros front c H. exact (rstrip_by_last _ _ _ H).
Qed.

Lemma strip_by_all (s : pystr) : forallb f s = true -> strip_by f s = [].
Proof. intros H. unfold strip_by. rewrite (lstrip_by_all s H). reflexivity. Qed.

(** [strip] leaves alone a string that starts and ends with characters it
    keeps. *)
Lemma strip_by_fixed (s : pystr) :
  (forall c rest, s = c :: rest -> f c = false) ->
  (forall front c, s = front ++ [c] -> f c = false) ->
  strip_by f s = s.
Proof.
  intros Hhead Hlast. unfold strip_by.
  rewrite lstrip_by_fixed.
  2: { destruct s as [|c r]; [exact I|]. exact (Hhead c r eq_refl). }
  unfold rstrip_by. rewrite lstrip_by_fixed; [apply rev_involutive|].
  destruct (rev s) as [|c r] eqn:E; [exact I|].
  apply (Hlast (rev r) c). rewrite <- (rev_involutive s), E. reflexivity.
Qed.

Lemma lstrip_by_nil (s : pystr) : lstrip_by f s = [] -> forallb f s = true.
Proof.
  induction s as [|d s IH]; simpl; [reflexivity|].
  destruct (f d); [exact IH|discriminate].
Qed.

Lemma strip_by_nonempty (s : pystr) :
  forallb f s = false -> strip_by f s <> [].
Proof.
  intros H Hs. unfold strip_by, rstrip_by in Hs.
  apply (f_equal (@rev N)) in Hs. rewrite rev_involutive in Hs. simpl in Hs.
  apply lstrip_by_nil in Hs.
  destruct (lstrip_by f s) as [|c t] eqn:E.
  - apply lstrip_by_nil in E. rewrite E in H. discriminate.
  - pose proof (lstrip_by_head _ _ _ E) as Hc.
    rewrite forallb_forall in Hs.
    rewrite (Hs c) in Hc; [discriminate|].
    apply in_rev. rewrite rev_involutive. left. reflexivity.
Qed.

End Strip.


Lemma fragment_ends (segment : Segment) : trimmed (fragment segment).
Proof. exact (strip_by_ends isspace (or_empty (text segment))). Qed.

(** X14: the text of the payload never starts or ends with white space. *)
Theorem payload_text_is_trimmed
  (segments : Segments) (w w' : world) (text_value : pystr) :
  joined_text segments w = (inl text_value, w') ->
  trimmed text_value.
Proof.
  destruct (generator_cases segments) as [[l ->]|[exc Hf]].
  - rewrite joined_text_yields. intros H. injection H as <- _.
    exact (strip_by_ends isspace _).
  - rewrite (joined_text_fails segments exc w Hf). discriminate.
Qed.

Lemma payload_text_is_trimmed_witness :
  joined_text (yields [ {| text := Some (py " so ") |}; {| text := None |} ]) initial_world
    = (inl (py "so"), initial_world)
  /\ trimmed (py "so").
Proof.
  assert (H : joined_text (yields [ {| text := Some (py " so ") |}; {| text := None |} ])
                initial_world = (inl (py "so"), initial_world))
    by (vm_compute; reflexivity).
  split; [exact H|].
  exact (payload_text_is_trimmed _ _ _ _ H).
Defined.

Lemma join_blank (l : list pystr) :
  (forall x, In x l -> x = []) -> forallb isspace (join (py " ") l) = true.
Proof.
  induction l as [|x l IH]; intros H; [reflexivity|].
  rewrite (H x (or_introl eq_refl)).
  destruct l as [|y l]; [reflexivity|].
  change (join (py " ") ([] :: y :: l)) with (py " " ++ join (py " ") (y :: l)).
  rewrite forallb_app. rewrite IH; [reflexivity|].
  intros z Hz. apply H. right. exact Hz.
Qed.

(** X15: when there is no segment, or every segment's text is missing,
    empty or white space only, the text of the payload is the empty
    string. *)
Theorem blank_segments_give_empty_text (l : list Segment) (w : world) :
  (forall segment, In segment l -> blank (text segment) = true) ->
  joined_text (yields l) w = (inl [], w).
Proof.
  intros H. rewrite joined_text_yields. f_equal. f_equal.
  apply strip_by_all. apply join_blank.
  intros x Hx. apply in_map_iff in Hx. destruct Hx as (segment & <- & Hs).
  apply strip_by_all. exact (H segment Hs).
Qed.

Lemma blank_segments_give_empty_text_witness :
  (forall segment,
     In segment [ {| text := Some (py "  ") |}; {| text := None |};
                  {| text := Some (py "") |} ] ->
     blank (text segment) = true)
  /\ joined_text (yields [ {| text := Some (py "  ") |}; {| text := None |};
                           {| text := Some (py "") |} ]) initial_world
     = (inl [], initial_world).
Proof.
  assert (H : forall segment,
            In segment [ {| text := Some (py "  ") |}; {| text := None |};
                         {| text := Some (py "") |} ] ->
            blank (text segment) = true)
    by (intros segment [<-|[<-|[<-|[]]]]; reflexivity).
  split; [exact H|].
  exact (blank_segments_give_empty_text _ initial_world H).
Defined.

Lemma join_nonempty (sep x : pystr) (l : list pystr) :
  x <> [] -> join sep (x :: l) <> [].
Proof.
  intros Hx. destruct l as [|y l]; simpl; [exact Hx|].
  destruct x; [contradiction|discriminate].
Qed.

Lemma join_ends (sep : pystr) (l : list pystr) :
  (forall x, In x l -> x <> [] /\ trimmed x) -> trimmed (join sep l).
Proof.
  intros H. split.
  - intros c rest Hj. destruct l as [|x l]; [discriminate|].
    destruct (H x (or_introl eq_refl)) as [Hne [Hhead _]].
    destruct x as [|d x]; [contradiction|].
    destruct l as [|y l]; simpl in Hj; injection Hj as <- _;
      exact (Hhead d x eq_refl).
  - induction l as [|x l IH]; intros front c Hj.
    + destruct front; discriminate.
    + destruct l as [|y l].
      * simpl in Hj. destruct (H x (or_introl eq_refl)) as [_ [_ Hlast]].
        exact (Hlast front c Hj).
      * assert (Hne : join sep (y :: l) <> []).
        { apply join_nonempty. apply (H y). right. left. reflexivity. }
        destruct (exists_last Hne) as (front' & c' & Hj').
        change (join sep (x :: y :: l)) with (x ++ sep ++ join sep (y :: l)) in Hj.
        rewrite Hj' in Hj. rewrite !app_assoc in Hj.
        apply app_inj_tail in Hj. destruct Hj as [_ <-].
        apply (IH (fun z Hz => H z (or_intror Hz)) front' c'). exact Hj'.
Qed.

(** X16: when every segment has some text that is not white space, the
    text of the payload is the trimmed texts of the segments separated by
    exactly one space each: the final [strip] changes nothing. *)
Theorem nonblank_segments_are_joined_by_single_spaces (l : list Segment) (w : world) :
  (forall segment, In segment l -> blank (text segment) = false) ->
  joined_text (yields l) w = (inl (join (py " ") (map fragment l)), w).
Proof.
  intros H. rewrite joined_text_yields. f_equal. f_equal.
  assert (Ht : trimmed (join (py " ") (map fragment l))).
  { apply join_ends. intros x Hx. apply in_map_iff in Hx.
    destruct Hx as (segment & <- & Hs). split.
    - apply strip_by_nonempty. exact (H segment Hs).
    - apply fragment_ends. }
  destruct Ht as [Hhead Hlast]. apply strip_by_fixed; assumption.
Qed.

Lemma nonblank_segments_are_joined_by_single_spaces_witness :
  (forall segment,
     In segment [ {| text := Some (py " so ") |}; {| text := Some (py "it goes ") |} ] ->
     blank (text segment) = false)
  /\ joined_text (yields [ {| text := Some (py " so ") |};
                           {| text := Some (py "it goes ") |} ]) initial_world
     = (inl (py "so it goes"), initial_world).
Proof.
  assert (H : forall segment,
            In segment [ {| text := Some (py " so ") |};
                         {| text := Some (py "it goes ") |} ] ->
            blank (text segment) = false)
    by (intros segment [<-|[<-|[]]]; reflexivity).
  split; [exact H|].
  exact (nonblank_segments_are_joined_by_single_spaces _ initial_world H).
Defined.
